(** * Match lifecycle, event ledger, schedule generator and socket admission

    A shallow embedding of [src/services/match/MatchService.js],
    [src/config/database.js] (the [transaction] wrapper) and
    [src/socket/index.js], and the properties of the specification that
    hold, or fail, on it. Part IV adds [createMatch] and
    [getMatchStatistics], the server of [src/socket/index.js] over time, the
    request helpers of [BaseController], [errorHandler], three endpoints of
    [MatchController] and the token middleware [verifyToken]; Part VI holds
    further properties of the source.

    Conventions of the embedding:
    - SQL tables are lists of rows: [SELECT ... WHERE] is [filter],
      [UPDATE ... WHERE] is a map over the rows, [DELETE ... WHERE] keeps the
      rows that do not match and [INSERT] appends a row whose id is the
      table's AUTO_INCREMENT value. The audit timestamps ([created_at],
      [updated_at]) are left out. The schema is not part of the source: a
      column is nullable ([option]) when a statement of the service can
      store NULL in it, and no foreign key is assumed.
    - [database.query] resolves to the rows of a statement. The connection
      that [transaction] hands to its callback is the driver's own
      ([mysql2/promise]): its [query] resolves to an array of two elements,
      the rows and the field descriptions of a [SELECT], or the result
      header and [undefined] of a statement that writes.
    - An [async] function that may throw returns a [result]; a transaction
      threads the connection's view of the database and rolls back on a
      throw.
    - JavaScript [Map]s and [Set]s are stdpp's [gmap] and [gset]; the plain
      object [groupStandings] keeps its properties in creation order.
    - Identifiers, scores, minutes and instants are integers ([Z]); the
      collation of [ORDER BY] is a parameter.
    - Library functions whose code is not part of the repository are
      parameters of the sections that use them: [parseInt] and [jwt.verify]
      ([None] when it throws). *)


From Stdlib Require Import ZArith NArith Ascii String List Lia.
From stdpp Require Import gmap strings list fin_maps sorting.

Local Open Scope string_scope.
Local Open Scope list_scope.
Local Open Scope Z_scope.

(** * Part I: the embedding of the source *)

(** ** Errors ([src/middleware/error/errorHandler.js]) *)

(** [class AppError extends Error]: a message and an HTTP status code. *)
Record AppError := mkAppError { message : string; statusCode : Z }.

#[global] Instance AppError_eq_dec : EqDecision AppError.
Proof. solve_decision. Defined.

(** The operational errors thrown by the service, under the names the
    specification gives to their kinds. *)
Definition NotFound : AppError := mkAppError "Match not found" 404.
Definition MatchNotInProgress : AppError := mkAppError "Match is not in progress" 400.
Definition PlayerNotEligible : AppError := mkAppError "Player not found in this match" 400.
Definition ImmutableState : AppError := mkAppError "Cannot modify finished match" 400.
Definition NoValidFields : AppError := mkAppError "No valid fields to update" 400.
Definition DeleteInProgress : AppError := mkAppError "Cannot delete match in progress" 400.
Definition InsufficientTeams : AppError :=
  mkAppError "Not enough teams in group to generate matches" 400.
Definition CategoryNotFound : AppError := mkAppError "Category not found" 404.
Definition UnsupportedFormat : AppError :=
  mkAppError "Category does not support bracket generation" 400.
Definition InsufficientQualifiers : AppError :=
  mkAppError "Not enough teams qualified for bracket" 400.

(** The outcome of an [async] function: a value, or a thrown error. *)
Inductive result (A : Type) : Type :=
| Ok (a : A)
| Throw (e : AppError).
Arguments Ok {A} a.
Arguments Throw {A} e.

(** ** Rows of the tables *)

(** Status and event-kind literals of the source. *)
Definition belum_main : string := "belum_main".
Definition sedang_main : string := "sedang_main".
Definition selesai : string := "selesai".
Definition GOL : string := "GOL".
Definition BUNUH_DIRI : string := "BUNUH_DIRI".
Definition KUNING : string := "KUNING".
Definition MERAH : string := "MERAH".

(** A row of [matches]. *)
Record Match := mkMatch {
  m_id : Z;
  m_id_kategori : Z;
  team_1 : option Z;
  team_2 : option Z;
  waktu : option Z;
  grup : option string;
  status : string;
  skor_1 : Z;
  skor_2 : Z;
  created_by : Z;
  updated_by : option Z
}.

(** A row of [match_events]. *)
Record MatchEvent := mkMatchEvent {
  me_id : Z;
  id_match : Z;
  me_id_kategori : Z;
  me_id_team : Z;
  me_id_pemain : Z;
  me_jenis : string;
  me_menit : Z;
  me_created_by : Z
}.

(** A row of [pemain_event]: a player registered for a category under a
    team, with the goal counter [jumlah_gol]. *)
Record PemainEvent := mkPemainEvent {
  pe_id : Z;
  pe_id_pemain : Z;
  pe_id_kategori : Z;
  pe_id_team : Z;
  no_punggung : Z;
  jumlah_gol : Z
}.

(** Rows of [pemain] and [teams] (display data). *)
Record Pemain := mkPemain { p_id : Z; nama_pemain : string }.
Record Team := mkTeam { t_id : Z; nama_club : string }.

(** Rows of [match_lineup] and [match_staff_lineup]. *)
Record MatchLineup := mkMatchLineup { ml_id : Z; ml_id_match : Z; id_pemain_event : Z }.
Record MatchStaffLineup := mkMatchStaffLineup { msl_id : Z; msl_id_match : Z; id_staff_event : Z }.

(** A row of [brackets]. *)
Record Bracket := mkBracket {
  b_id_kategori : Z;
  round : string;
  kode : string;
  b_team_1 : option Z;
  b_team_2 : option Z;
  match_id : option Z;
  b_status : string
}.

(** Rows of [event_categories], [event_teams] and [klasemen]. *)
Record EventCategory := mkEventCategory { ec_id : Z; tipe_final : string }.
Record EventTeam := mkEventTeam { et_id_kategori : Z; et_id_team : Z; et_grup : string }.
Record Klasemen := mkKlasemen {
  k_id_kategori : Z;
  k_id_team : Z;
  point : Z;
  selisih : Z;
  goal_masuk : Z
}.

#[global] Instance Match_eq_dec : EqDecision Match.
Proof. solve_decision. Defined.
#[global] Instance MatchEvent_eq_dec : EqDecision MatchEvent.
Proof. solve_decision. Defined.
#[global] Instance PemainEvent_eq_dec : EqDecision PemainEvent.
Proof. solve_decision. Defined.

(** ** The database *)

Record Database := mkDatabase {
  matches : list Match;
  match_events : list MatchEvent;
  pemain_event : list PemainEvent;
  pemain : list Pemain;
  teams : list Team;
  match_lineup : list MatchLineup;
  match_staff_lineup : list MatchStaffLineup;
  brackets : list Bracket;
  event_categories : list EventCategory;
  event_teams : list EventTeam;
  klasemen : list Klasemen
}.

Definition set_matches (f : list Match → list Match) (db : Database) : Database :=
  mkDatabase (f (matches db)) (match_events db) (pemain_event db) (pemain db)
    (teams db) (match_lineup db) (match_staff_lineup db) (brackets db)
    (event_categories db) (event_teams db) (klasemen db).

Definition set_match_events (f : list MatchEvent → list MatchEvent) (db : Database) : Database :=
  mkDatabase (matches db) (f (match_events db)) (pemain_event db) (pemain db)
    (teams db) (match_lineup db) (match_staff_lineup db) (brackets db)
    (event_categories db) (event_teams db) (klasemen db).

Definition set_pemain_event (f : list PemainEvent → list PemainEvent) (db : Database) : Database :=
  mkDatabase (matches db) (match_events db) (f (pemain_event db)) (pemain db)
    (teams db) (match_lineup db) (match_staff_lineup db) (brackets db)
    (event_categories db) (event_teams db) (klasemen db).

Definition set_match_lineup (f : list MatchLineup → list MatchLineup) (db : Database) : Database :=
  mkDatabase (matches db) (match_events db) (pemain_event db) (pemain db)
    (teams db) (f (match_lineup db)) (match_staff_lineup db) (brackets db)
    (event_categories db) (event_teams db) (klasemen db).

Definition set_match_staff_lineup (f : list MatchStaffLineup → list MatchStaffLineup)
    (db : Database) : Database :=
  mkDatabase (matches db) (match_events db) (pemain_event db) (pemain db)
    (teams db) (match_lineup db) (f (match_staff_lineup db)) (brackets db)
    (event_categories db) (event_teams db) (klasemen db).

Definition set_brackets (f : list Bracket → list Bracket) (db : Database) : Database :=
  mkDatabase (matches db) (match_events db) (pemain_event db) (pemain db)
    (teams db) (match_lineup db) (match_staff_lineup db) (f (brackets db))
    (event_categories db) (event_teams db) (klasemen db).

(** AUTO_INCREMENT: an id above every id already in the table. *)
Definition auto_increment {A} (id : A → Z) (rows : list A) : Z :=
  1 + foldr (λ r acc, Z.max (id r) acc) 0 rows.

(** ** Transactions ([Database.transaction]) *)

(** A unit of work on the transaction's connection: it reads and writes the
    connection's view of the database and may throw. *)
Definition Tx (A : Type) : Type := Database → result (A * Database).

Definition tx_ret {A} (a : A) : Tx A := λ conn, Ok (a, conn).
Definition tx_throw {A} (e : AppError) : Tx A := λ _, Throw e.
Definition tx_bind {A B} (m : Tx A) (k : A → Tx B) : Tx B :=
  λ conn, match m conn with
          | Ok (a, conn') => k a conn'
          | Throw e => Throw e
          end.
(** [connection.query] of a statement that writes, where what it resolves
    to is not read. *)
Definition tx_exec (f : Database → Database) : Tx unit := λ conn, Ok (tt, f conn).

Notation "'let*' x ':=' m 'in' k" := (tx_bind m (λ x, k))
  (at level 10, x name, m at level 100, k at level 200, only parsing).
Notation "'await' m 'in' k" := (tx_bind m (λ _, k))
  (at level 10, m at level 100, k at level 200, only parsing).

(** [transaction(callback)]: [beginTransaction], run the callback on the
    connection, [commit] when it returns and [rollback] when it throws.
    The callback also receives the committed database, which is what
    [database.query] (a pool connection outside the transaction) reads. *)
Definition transaction {A} (callback : Database → Tx A) (db : Database)
    : result A * Database :=
  match callback db db with
  | Ok (a, conn) => (Ok a, conn)
  | Throw e => (Throw e, db)
  end.

(** ** The driver's connection ([mysql2/promise]) *)

(** An element of the array that [connection.query] resolves to for a
    [SELECT]: the array of rows, or the array of field descriptions (whose
    content nothing reads). *)
Inductive Item (R : Type) : Type :=
| rows_array (rows : list R)
| fields_array.
Arguments rows_array {R} rows.
Arguments fields_array {R}.

(** [connection.query] of a [SELECT]: the array [[rows, fields]]. *)
Definition connection_query {R} (q : Database → list R) : Tx (list (Item R)) :=
  λ conn, Ok ([rows_array (q conn); fields_array], conn).

(** [x.column] for an element [x] of that array and the name of a column.
    Both elements are arrays, and an array has no property of such a name:
    the read gives [undefined], whatever the rows hold. *)
Definition column {R V} (get : R → V) (x : Item R) : option V := None.

(** ** Reading a match *)

(** [getMatchById]: the row of [matches] with this id, read through
    [database.query] (the joined display columns are LEFT JOINs and do not
    decide whether a row is returned). *)
Definition getMatchById (pool : Database) (id : Z) : option Match :=
  head (filter (λ m, m_id m = id) (matches pool)).

(** [UPDATE matches SET ... WHERE id = ?]. *)
Definition update_match (id : Z) (f : Match → Match) : Database → Database :=
  set_matches (fmap (λ m, if decide (m_id m = id) then f m else m)).

(** ** The event ledger ([addMatchEvent]) *)

(** The request body of [POST /api/matches/:id/events]. *)
Record EventData := mkEventData {
  id_team : Z;
  id_pemain : Z;
  jenis : string;
  menit : Z
}.

(** A row of the final query of [addMatchEvent]: the event joined with its
    display data. *)
Record EventDetail := mkEventDetail {
  ed_event : MatchEvent;
  ed_nama_pemain : string;
  ed_no_punggung : option Z;
  ed_team_name : string
}.

(** [SELECT pe.id_team FROM pemain_event pe WHERE pe.id_pemain = ? AND
    pe.id_kategori = ? AND pe.id_team IN (?, ?)]. *)
Definition playerQuery (conn : Database) (player kategori : Z) (t1 t2 : option Z)
    : list PemainEvent :=
  filter (λ pe, pe_id_pemain pe = player ∧ pe_id_kategori pe = kategori
                ∧ (Some (pe_id_team pe) = t1 ∨ Some (pe_id_team pe) = t2))
         (pemain_event conn).

(** [INSERT INTO match_events (...) VALUES (...)]; the first element of what
    it resolves to is the result header, of which [insertId] is read. *)
Definition eventQuery (matchId kategori : Z) (eventData : EventData) (userId : Z) : Tx Z :=
  λ conn,
    let insertId := auto_increment me_id (match_events conn) in
    Ok (insertId,
        set_match_events
          (λ rows, rows ++ [mkMatchEvent insertId matchId kategori (id_team eventData)
                              (id_pemain eventData) (jenis eventData) (menit eventData)
                              userId])
          conn).

(** The two score columns of a match. *)
Inductive ScoreField := F_skor_1 | F_skor_2.

(** [SET ${scoreField} = ${scoreField} + 1]. *)
Definition increment_score (f : ScoreField) (m : Match) : Match :=
  match f with
  | F_skor_1 =>
      mkMatch (m_id m) (m_id_kategori m) (team_1 m) (team_2 m) (waktu m) (grup m)
        (status m) (skor_1 m + 1) (skor_2 m) (created_by m) (updated_by m)
  | F_skor_2 =>
      mkMatch (m_id m) (m_id_kategori m) (team_1 m) (team_2 m) (waktu m) (grup m)
        (status m) (skor_1 m) (skor_2 m + 1) (created_by m) (updated_by m)
  end.

(** [scoringTeam === match.team_1 ? 'skor_1' : 'skor_2']. *)
Definition scoreField (scoringTeam : option Z) (match_ : Match) : ScoreField :=
  if decide (scoringTeam = team_1 match_) then F_skor_1 else F_skor_2.

Definition updateScoreFromEvent (matchId : Z) (scoringTeam : option Z) (match_ : Match)
    : Tx unit :=
  tx_exec (update_match matchId (increment_score (scoreField scoringTeam match_))).

(** [SET jumlah_gol = jumlah_gol + 1]. *)
Definition increment_gol (pe : PemainEvent) : PemainEvent :=
  mkPemainEvent (pe_id pe) (pe_id_pemain pe) (pe_id_kategori pe) (pe_id_team pe)
    (no_punggung pe) (jumlah_gol pe + 1).

Definition updatePlayerStats (playerId kategoriId : Z) (eventType : string) : Tx unit :=
  if decide (eventType = GOL) then
    tx_exec (set_pemain_event
               (fmap (λ pe, if decide (pe_id_pemain pe = playerId
                                       ∧ pe_id_kategori pe = kategoriId)
                            then increment_gol pe else pe)))
  else tx_ret tt.

(** The final [SELECT me.*, p.nama_pemain, pe.no_punggung, t.nama_club]:
    inner joins on [pemain] and [teams], a left join on [pemain_event]. *)
Definition eventDetailQuery (conn : Database) (insertId : Z) : list EventDetail :=
  me ← filter (λ me, me_id me = insertId) (match_events conn);
  p ← filter (λ p, p_id p = me_id_pemain me) (pemain conn);
  pe ← (match filter (λ pe, pe_id_pemain pe = p_id p ∧ pe_id_team pe = me_id_team me
                             ∧ pe_id_kategori pe = me_id_kategori me)
                     (pemain_event conn) with
        | [] => [None]
        | rows => Some <$> rows
        end);
  t ← filter (λ t, t_id t = me_id_team me) (teams conn);
  [mkEventDetail me (nama_pemain p) (no_punggung <$> pe) (nama_club t)].

(** [eventData.id_team === match.team_1 ? match.team_2 : match.team_1]. *)
Definition opponentTeam (eventData : EventData) (match_ : Match) : option Z :=
  if decide (Some (id_team eventData) = team_1 match_) then team_2 match_ else team_1 match_.

(** [player] and [eventDetail] are bound by [const [x] = await
    connection.query(...)]: each is the first element of the resolved
    array, the array of rows. [!player] holds of [undefined] only; an array
    is an object and so truthy, also when it is empty. The function resolves
    to the array of rows of its final query. *)
Definition addMatchEvent (matchId : Z) (eventData : EventData) (userId : Z)
    : Database → result (option (Item EventDetail)) * Database :=
  transaction (λ pool,
    (* Validate match exists and is in progress *)
    match getMatchById pool matchId with
    | None => tx_throw NotFound
    | Some match_ =>
      if decide (status match_ ≠ sedang_main) then tx_throw MatchNotInProgress
      else
        (* Validate player belongs to one of the teams *)
        let* resolved := connection_query (λ conn,
          playerQuery conn (id_pemain eventData) (m_id_kategori match_)
            (team_1 match_) (team_2 match_)) in
        match head resolved with
        | None => tx_throw PlayerNotEligible
        | Some player =>
          (* Insert match event *)
          let* insertId := eventQuery matchId (m_id_kategori match_) eventData userId in
          (* Update match score if it's a goal *)
          await (if decide (jenis eventData = GOL) then
                   updateScoreFromEvent matchId (Some (id_team eventData)) match_
                 else if decide (jenis eventData = BUNUH_DIRI) then
                   (* Own goal - add score to opponent *)
                   updateScoreFromEvent matchId (opponentTeam eventData match_) match_
                 else tx_ret tt) in
          (* Update player statistics if it's a goal *)
          await (if decide (jenis eventData ∈ [GOL; BUNUH_DIRI]) then
                   updatePlayerStats (id_pemain eventData) (m_id_kategori match_)
                     (jenis eventData)
                 else tx_ret tt) in
          (* Return the created event with player details *)
          let* resolved := connection_query (λ conn, eventDetailQuery conn insertId) in
          tx_ret (head resolved)
        end
    end).

(** ** Updating, deleting and overriding ([updateMatch], [deleteMatch],
    [updateScore]) *)

(** The request body of [PUT /api/matches/:id]: the allowed fields that are
    present, and the names of any other keys. *)
Record UpdateData := mkUpdateData {
  u_waktu : option Z;
  u_status : option string;
  u_grup : option string;
  u_skor_1 : option Z;
  u_skor_2 : option Z;
  u_other : list string
}.

(** [if (allowedFields.includes(key)) updateFields.push(`${key} = ?`)]. *)
Definition push_if_present {A} (key : string) (value : option A) : list string :=
  match value with
  | Some _ => [key ++ " = ?"]%string
  | None => []
  end.

(** The [SET] list built from the allowed keys that are present. *)
Definition updateFields (updateData : UpdateData) : list string :=
  push_if_present "waktu" (u_waktu updateData) ++
  push_if_present "status" (u_status updateData) ++
  push_if_present "grup" (u_grup updateData) ++
  push_if_present "skor_1" (u_skor_1 updateData) ++
  push_if_present "skor_2" (u_skor_2 updateData).

(** [UPDATE matches SET ${updateFields.join(', ')}] on one row: the allowed
    keys that are present, and [updated_by]. The [updated_at = NOW()] of
    the statement is left out with the audit timestamps, so no equality of
    rows or databases below speaks of it. *)
Definition apply_update (updateData : UpdateData) (userId : Z) (m : Match) : Match :=
  mkMatch (m_id m) (m_id_kategori m) (team_1 m) (team_2 m)
    (match u_waktu updateData with Some w => Some w | None => waktu m end)
    (match u_grup updateData with Some g => Some g | None => grup m end)
    (default (status m) (u_status updateData))
    (default (skor_1 m) (u_skor_1 updateData))
    (default (skor_2 m) (u_skor_2 updateData))
    (created_by m) (Some userId).

Definition updateMatch (id : Z) (updateData : UpdateData) (userId : Z)
    : Database → result (option Match) * Database :=
  transaction (λ pool,
    (* Check if match exists and get current status *)
    match getMatchById pool id with
    | None => tx_ret None
    | Some currentMatch =>
      (* Prevent updates to finished matches *)
      if decide (status currentMatch = selesai ∧ u_status updateData ≠ Some selesai)
      then tx_throw ImmutableState
      else if decide (length (updateFields updateData) = 0%nat)
      then tx_throw NoValidFields
      else
        await tx_exec (update_match id (apply_update updateData userId)) in
        (* Get updated match *)
        tx_ret (getMatchById pool id)
    end).

Definition deleteMatch (id : Z) (userId : Z) : Database → result bool * Database :=
  transaction (λ pool,
    (* Check if match exists and can be deleted *)
    match getMatchById pool id with
    | None => tx_ret false
    | Some match_ =>
      if decide (status match_ = sedang_main) then tx_throw DeleteInProgress
      else
        (* Delete related records first *)
        await tx_exec (set_match_events (filter (λ me, id_match me ≠ id))) in
        await tx_exec (set_match_lineup (filter (λ ml, ml_id_match ml ≠ id))) in
        await tx_exec (set_match_staff_lineup (filter (λ msl, msl_id_match msl ≠ id))) in
        (* Delete the match *)
        let* affectedRows := (λ conn,
          Ok (length (filter (λ m, m_id m = id) (matches conn)),
              set_matches (filter (λ m, m_id m ≠ id)) conn)) in
        tx_ret (bool_decide (0 < affectedRows)%nat)
    end).

(** [SET skor_1 = ?, skor_2 = ?, updated_at = NOW(), updated_by = ?]. *)
Definition set_score (skor1 skor2 userId : Z) (m : Match) : Match :=
  mkMatch (m_id m) (m_id_kategori m) (team_1 m) (team_2 m) (waktu m) (grup m)
    (status m) skor1 skor2 (created_by m) (Some userId).

Definition updateScore (id skor1 skor2 userId : Z)
    : Database → result (option Match) * Database :=
  transaction (λ pool,
    match getMatchById pool id with
    | None => tx_ret None
    | Some match_ =>
      await tx_exec (update_match id (set_score skor1 skor2 userId)) in
      tx_ret (getMatchById pool id)
    end).

(** ** The schedule generator ([generateGroupMatches]) *)

(** The options of [generateGroupMatches]. Instants are in seconds:
    [match_day_start] is the instant the match day begins, [jam_awal] the
    kickoff as seconds into the day (default ['13:00:00']), [jeda_menit] the
    interval in minutes (default 90). The options are taken to hold a day
    and a time of day that [new Date] can read (on others [toISOString]
    throws a [RangeError]); time zones are left out. *)
Record GroupOptions := mkGroupOptions {
  o_id_kategori : Z;
  o_grup : string;
  match_day_start : Z;
  jam_awal : option Z;
  jeda_menit : option Z
}.

(** A row of the roster query: [et.id_team, t.nama_club]. *)
Record GroupTeam := mkGroupTeam { gt_id_team : Z; gt_nama_club : string }.

(** An element of the returned [matches] array; [team_1] and [team_2] hold
    what [teams[i].nama_club] and [teams[j].nama_club] gave. *)
Record Fixture := mkFixture {
  f_id : Z;
  f_team_1 : option string;
  f_team_2 : option string;
  f_waktu : Z;
  f_grup : string
}.

(** The variables the double loop updates: the connection, the [matches]
    array and [currentTime]. *)
Record GenState := mkGenState {
  gs_conn : Database;
  gs_matches : list Fixture;
  gs_currentTime : Z
}.

(** The body of the inner loop: insert the match of [teams[i]] against
    [teams[j]] at [currentTime], push it, and advance [currentTime] by
    [jeda_menit] minutes. The driver sends an [undefined] parameter as
    NULL. *)
Definition insert_group_match (id_kategori : Z) (grup_ : string) (userId jeda : Z)
    (ti tj : Item GroupTeam) (st : GenState) : GenState :=
  let waktu_ := gs_currentTime st in
  let insertId := auto_increment m_id (matches (gs_conn st)) in
  mkGenState
    (set_matches
       (λ rows, rows ++ [mkMatch insertId id_kategori (column gt_id_team ti)
                           (column gt_id_team tj) (Some waktu_) (Some grup_)
                           belum_main 0 0 userId None])
       (gs_conn st))
    (gs_matches st ++ [mkFixture insertId (column gt_nama_club ti) (column gt_nama_club tj)
                         waktu_ grup_])
    (gs_currentTime st + 60 * jeda).

(** [for (i = 0; i < teams.length; i++) for (j = i + 1; j < teams.length; j++)].
    Both indices stay below [teams.length], so both lookups succeed. *)
Definition round_robin (id_kategori : Z) (grup_ : string) (userId jeda : Z)
    (teams_ : list (Item GroupTeam)) (st : GenState) : GenState :=
  foldl (λ st i,
    foldl (λ st j,
      match teams_ !! i, teams_ !! j with
      | Some ti, Some tj => insert_group_match id_kategori grup_ userId jeda ti tj st
      | _, _ => st
      end) st (seq (S i) (length teams_ - S i)))
    st (seq 0 (length teams_)).

Section Collation.
(** The collation that [ORDER BY] uses on names and group labels: a
    decidable relation on strings. *)
Context (collate : relation string) `{!RelDecision collate}.

(** [SELECT et.id_team, t.nama_club FROM event_teams et JOIN teams t ON
    et.id_team = t.id WHERE et.id_kategori = ? AND et.grup = ?], before
    ordering. *)
Definition group_rows (conn : Database) (id_kategori : Z) (grup_ : string)
    : list GroupTeam :=
  et ← filter (λ et, et_id_kategori et = id_kategori ∧ et_grup et = grup_)
         (event_teams conn);
  t ← filter (λ t, t_id t = et_id_team et) (teams conn);
  [mkGroupTeam (et_id_team et) (nama_club t)].

(** The order of [ORDER BY t.nama_club]. *)
Definition by_name (a b : GroupTeam) : Prop :=
  collate (gt_nama_club a) (gt_nama_club b).

#[global] Instance by_name_dec : RelDecision by_name :=
  λ a b, decide_rel collate (gt_nama_club a) (gt_nama_club b).

(** The same rows [ORDER BY t.nama_club]. *)
Definition teamsQuery (conn : Database) (id_kategori : Z) (grup_ : string)
    : list GroupTeam :=
  merge_sort by_name (group_rows conn id_kategori grup_).

(** [teams] is what [connection.query] resolved to, the array of two
    elements: [teams.length] is 2 and the loops run over its elements. *)
Definition generateGroupMatches (options : GroupOptions) (userId : Z)
    : Database → result (list Fixture) * Database :=
  transaction (λ pool,
    let jam_awal_ := default 46800 (jam_awal options) in
    let jeda_menit_ := default 90 (jeda_menit options) in
    (* Get teams in the group *)
    let* teams_ := connection_query (λ conn,
      teamsQuery conn (o_id_kategori options) (o_grup options)) in
    if decide (length teams_ < 2)%nat then tx_throw InsufficientTeams
    else
      (* Generate round-robin matches *)
      let currentTime := match_day_start options + jam_awal_ in
      λ conn,
        let st := round_robin (o_id_kategori options) (o_grup options) userId jeda_menit_
                    teams_ (mkGenState conn [] currentTime) in
        Ok (gs_matches st, gs_conn st)).
End Collation.

(** ** Bracket seeding ([generateBracketMatches]) *)

(** A row of the standings query: [k.*, t.nama_club, et.grup]. *)
Record Standing := mkStanding {
  s_id_team : Z;
  s_nama_club : string;
  s_grup : string;
  s_point : Z;
  s_selisih : Z;
  s_goal_masuk : Z
}.

(** *** Plain JavaScript objects with string keys

    [groupStandings] is a plain object used as a map from group label to
    array. Its properties are kept in creation order; [Object.values]
    enumerates the properties whose key is an array index (a canonical
    decimal numeral below [2^32 - 1]) first, in ascending numeric order, and
    then the other properties in creation order. *)

Definition is_digit (c : ascii) : bool :=
  let n := Ascii.N_of_ascii c in ((48 <=? n) && (n <=? 57))%N.

Fixpoint digits_value (acc : N) (s : string) : option N :=
  match s with
  | EmptyString => Some acc
  | String c s' =>
      if is_digit c then digits_value (acc * 10 + (Ascii.N_of_ascii c - 48))%N s'
      else None
  end.

(** The numeric value of a key that is an array index. *)
Definition array_index (key : string) : option N :=
  match key with
  | EmptyString => None
  | String c rest =>
      if (Ascii.eqb c "0"%char && negb (String.eqb rest EmptyString))%bool then None
      else
        match digits_value 0 key with
        | Some n => if (n <? 4294967295)%N then Some n else None
        | None => None
        end
  end.

(** The key that a value names as a property: [undefined] names the
    property ['undefined']. *)
Definition property_key (v : option string) : string := default "undefined" v.

(** [obj[key]], for a key that [Object.prototype] does not define (the one
    key that [generateBracketMatches] uses is ['undefined']). *)
Definition obj_get {V} (obj : list (string * V)) (key : string) : option V :=
  snd <$> head (filter (λ kv, kv.1 = key) obj).

(** [obj[key] = v]: overwrite in place, or create the property last. *)
Fixpoint obj_set {V} (obj : list (string * V)) (key : string) (v : V) : list (string * V) :=
  match obj with
  | [] => [(key, v)]
  | (k, w) :: rest =>
      if decide (k = key) then (k, v) :: rest else (k, w) :: obj_set rest key v
  end.

(** Insertion of an indexed property into the ascending run of indexed
    properties. *)
Fixpoint insert_indexed {V} (n : N) (v : V) (l : list (N * V)) : list (N * V) :=
  match l with
  | [] => [(n, v)]
  | (m, w) :: rest =>
      if (n <? m)%N then (n, v) :: l else (m, w) :: insert_indexed n v rest
  end.

Definition indexed_props {V} (obj : list (string * V)) : list (N * V) :=
  foldr (λ kv acc, match array_index kv.1 with
                   | Some n => insert_indexed n kv.2 acc
                   | None => acc
                   end) [] obj.

Definition named_props {V} (obj : list (string * V)) : list (string * V) :=
  filter (λ kv, array_index kv.1 = None) obj.

(** [Object.values(obj)]. *)
Definition Object_values {V} (obj : list (string * V)) : list V :=
  (snd <$> indexed_props obj) ++ (snd <$> named_props obj).

(** *** The comparator and the sort *)

(** [b - a] on what two column reads gave; with an [undefined] operand the
    difference is [NaN], here [None]. *)
Definition minus (b a : option Z) : option Z :=
  match b, a with
  | Some b, Some a => Some (b - a)
  | _, _ => None
  end.

(** The comparator handed to [sort]: points, then goal difference, then
    goals scored, each descending. *)
Definition compareTeams (a b : Item Standing) : option Z :=
  if decide (column s_point b ≠ column s_point a)
  then minus (column s_point b) (column s_point a)
  else if decide (column s_selisih b ≠ column s_selisih a)
  then minus (column s_selisih b) (column s_selisih a)
  else minus (column s_goal_masuk b) (column s_goal_masuk a).

(** [Array.prototype.sort(compareFn)] is a stable sort that reads a [NaN]
    from the comparator as 0. [sort_insert] puts an element [x] that
    preceded all of [l] into the sorted [l]: after the elements that must
    come before it ([compareFn x y > 0]) and before the first that need
    not. *)
Fixpoint sort_insert {A} (compareFn : A → A → option Z) (x : A) (l : list A) : list A :=
  match l with
  | [] => [x]
  | y :: l' => if decide (default 0 (compareFn x y) ≤ 0) then x :: l
               else y :: sort_insert compareFn x l'
  end.

Definition sort {A} (compareFn : A → A → option Z) (l : list A) : list A :=
  foldr (sort_insert compareFn) [] l.

(** *** Qualification *)

(** The body of [standings.forEach]: create the array of [team.grup] when
    there is none, and push the team while the array holds fewer than
    two. *)
Definition collect_top2 (groupStandings : list (string * list (Item Standing)))
    (team : Item Standing) : list (string * list (Item Standing)) :=
  let grup_ := property_key (column s_grup team) in
  let groupStandings :=
    match obj_get groupStandings grup_ with
    | None => obj_set groupStandings grup_ []
    | Some _ => groupStandings
    end in
  match obj_get groupStandings grup_ with
  | Some arr =>
      if decide (length arr < 2)%nat
      then obj_set groupStandings grup_ (arr ++ [team])
      else groupStandings
  | None => groupStandings
  end.

(** [Object.values(groupStandings).flat()], where [standings] is what
    [connection.query] resolved to. *)
Definition qualifiedTeams (standings : list (Item Standing)) : list (Item Standing) :=
  concat (Object_values (foldl collect_top2 [] standings)).

(** [qualifiedTeams.sort(...).slice(0, 4)]. *)
Definition sortedTeams (standings : list (Item Standing)) : list (Item Standing) :=
  take 4 (sort compareTeams (qualifiedTeams standings)).

(** An element of the [semifinals] array, and of [createdMatches]. *)
Record Semifinal := mkSemifinal {
  sf_team_1 : option Z;
  sf_team_2 : option Z;
  sf_kode : string
}.
Record CreatedMatch := mkCreatedMatch {
  cm_id : Z;
  cm_round : string;
  cm_kode : string;
  cm_team_1 : option Z;
  cm_team_2 : option Z
}.

(** [semifinals]: seed 1 against seed 4 and seed 2 against seed 3. The call
    is made only after the check that at least four teams qualified, so the
    four seeds exist. *)
Definition semifinals (sorted : list (Item Standing)) : list Semifinal :=
  match sorted with
  | s0 :: s1 :: s2 :: s3 :: _ =>
      [mkSemifinal (column s_id_team s0) (column s_id_team s3) "SF1";
       mkSemifinal (column s_id_team s1) (column s_id_team s2) "SF2"]
  | _ => []
  end.

(** The body of [for (const match of semifinals)]: insert the match, insert
    its bracket entry, push the created match. *)
Definition insert_semifinal (id_kategori userId : Z) (acc : Database * list CreatedMatch)
    (sf : Semifinal) : Database * list CreatedMatch :=
  let '(conn, createdMatches) := acc in
  let insertId := auto_increment m_id (matches conn) in
  let conn := set_matches
                (λ rows, rows ++ [mkMatch insertId id_kategori (sf_team_1 sf) (sf_team_2 sf)
                                    None (Some "semifinal") belum_main 0 0 userId None])
                conn in
  let conn := set_brackets
                (λ rows, rows ++ [mkBracket id_kategori "semifinal" (sf_kode sf)
                                    (sf_team_1 sf) (sf_team_2 sf)
                                    (Some insertId) belum_main])
                conn in
  (conn, createdMatches ++ [mkCreatedMatch insertId "semifinal" (sf_kode sf)
                              (sf_team_1 sf) (sf_team_2 sf)]).

(** [finalBrackets]: the placeholders for the final and the third place. *)
Definition finalBrackets (id_kategori : Z) : list Bracket :=
  [mkBracket id_kategori "final" "F1" None None None "menunggu";
   mkBracket id_kategori "juara_3" "J3" None None None "menunggu"].

Section BracketQueries.
Context (collate : relation string) `{!RelDecision collate}.

(** The standings of a category joined with team names and group labels,
    before ordering. *)
Definition standings_rows (conn : Database) (id_kategori : Z) : list Standing :=
  k ← filter (λ k, k_id_kategori k = id_kategori) (klasemen conn);
  t ← filter (λ t, t_id t = k_id_team k) (teams conn);
  et ← filter (λ et, et_id_team et = k_id_team k ∧ et_id_kategori et = k_id_kategori k)
         (event_teams conn);
  [mkStanding (k_id_team k) (nama_club t) (et_grup et) (point k) (selisih k)
     (goal_masuk k)].

(** [ORDER BY et.grup, k.point DESC, k.selisih DESC, k.goal_masuk DESC]. *)
Definition by_standing (a b : Standing) : Prop :=
  if decide (collate (s_grup a) (s_grup b) ∧ collate (s_grup b) (s_grup a)) then
    s_point b < s_point a
    ∨ (s_point a = s_point b
       ∧ (s_selisih b < s_selisih a
          ∨ (s_selisih a = s_selisih b ∧ s_goal_masuk b ≤ s_goal_masuk a)))
  else collate (s_grup a) (s_grup b).

#[global] Instance by_standing_dec : RelDecision by_standing.
Proof. intros a b. unfold by_standing. case_decide; apply _. Defined.

Definition standingsQuery (conn : Database) (id_kategori : Z) : list Standing :=
  merge_sort by_standing (standings_rows conn id_kategori).

(** The value [generateBracketMatches] resolves to. *)
Record BracketResult := mkBracketResult {
  br_semifinals : list CreatedMatch;
  br_message : string
}.

(** [category] is bound by [const [category] = await connection.query(...)]:
    it is the array of rows, so [!category] does not hold and
    [category.tipe_final] is [undefined]. *)
Definition generateBracketMatches (id_kategori : Z) (type : string) (userId : Z)
    : Database → result BracketResult * Database :=
  transaction (λ pool,
    (* Get category details *)
    let* resolved := connection_query (λ conn,
      filter (λ c, ec_id c = id_kategori) (event_categories conn)) in
    match head resolved with
    | None => tx_throw CategoryNotFound
    | Some category =>
      if decide (column tipe_final category ≠ Some "final_four")
      then tx_throw UnsupportedFormat
      else
        (* Get top teams from groups *)
        let* standings := connection_query (λ conn, standingsQuery conn id_kategori) in
        (* Validate we have enough teams *)
        if decide (length (qualifiedTeams standings) < 4)%nat
        then tx_throw InsufficientQualifiers
        else
          λ conn,
            (* Create semifinal matches *)
            let '(conn, createdMatches) :=
              foldl (insert_semifinal id_kategori userId) (conn, [])
                (semifinals (sortedTeams standings)) in
            (* Create placeholder brackets for final and 3rd place *)
            let conn := foldl (λ conn bracket, set_brackets (λ rows, rows ++ [bracket]) conn)
                          conn (finalBrackets id_kategori) in
            Ok (mkBracketResult createdMatches
                  "Semifinal matches created, final matches will be generated after semifinals complete",
                conn)
    end).
End BracketQueries.

(** ** The socket service ([src/socket/index.js]) *)

(** *** Admission ([setupMiddleware]) *)

(** A value of the [connections] map: [{ count, lastReset }]. *)
Record Client := mkClient { count : Z; lastReset : Z }.

(** What the middleware hands to [next]: nothing, or an [Error]. *)
Inductive Admission :=
| next_ok
| next_error (msg : string).

(** The rate-limiting middleware, run on the handshake of a new socket from
    the address [clientId] at the instant [now] (milliseconds). *)
Definition rateLimit (clientId : string) (now : Z) (connections : gmap string Client)
    : Admission * gmap string Client :=
  match connections !! clientId with
  | None => (next_ok, <[clientId := mkClient 1 now]> connections)
  | Some client =>
      if decide (60000 < now - lastReset client) then
        (next_ok, <[clientId := mkClient 1 now]> connections)
      else if decide (50 ≤ count client) then
        (next_error "Rate limit exceeded", connections)
      else
        (next_ok, <[clientId := mkClient (count client + 1) (lastReset client)]> connections)
  end.

(** *** Rooms ([handleRoomJoining], [joinWithCooldown]) *)

(** A connected socket: its id, the rooms it is in, and the [joinCooldowns]
    map that [handleRoomJoining] creates for it. *)
Record Connection := mkConnection {
  socket_id : string;
  rooms : gset string;
  joinCooldowns : gmap string Z
}.

Definition joinWithCooldown (now : Z) (room : string) (cooldownMs : Z) (socket : Connection)
    : Connection :=
  let lastJoin := default 0 (joinCooldowns socket !! (socket_id socket ++ room)%string) in
  if decide (now - lastJoin < cooldownMs) then socket
  else
    mkConnection (socket_id socket) ({[room]} ∪ rooms socket)
      (<[(socket_id socket ++ room)%string := now]> (joinCooldowns socket)).

(** [socket.leave(room)]. *)
Definition leave (room : string) (socket : Connection) : Connection :=
  mkConnection (socket_id socket) (rooms socket ∖ {[room]}) (joinCooldowns socket).

(** The room names: [`match_${matchId}`] and [`category_${categoryId}`]. *)
Definition match_room (matchId : string) : string := ("match_" ++ matchId)%string.
Definition category_room (categoryId : string) : string := ("category_" ++ categoryId)%string.

(** The messages a client sends about rooms. *)
Inductive RoomMessage :=
| join_match (matchId : string)
| leave_match (matchId : string)
| join_category (categoryId : string)
| leave_category (categoryId : string).

(** The handlers that [handleRoomJoining] registers, run at the instant
    [now]. *)
Definition on_message (now : Z) (msg : RoomMessage) (socket : Connection) : Connection :=
  match msg with
  | join_match matchId => joinWithCooldown now (match_room matchId) 2000 socket
  | leave_match matchId => leave (match_room matchId) socket
  | join_category categoryId => joinWithCooldown now (category_room categoryId) 2000 socket
  | leave_category categoryId => leave (category_room categoryId) socket
  end.

(** A socket right after [connection]: in the room ['general'], with an empty
    [joinCooldowns]. *)
Definition connected (id : string) : Connection := mkConnection id {["general"]} ∅.

(** A sequence of timed messages on one socket. *)
Definition on_messages (trace : list (Z * RoomMessage)) (socket : Connection) : Connection :=
  foldl (λ socket tm, on_message tm.1 tm.2 socket) socket trace.

(** *** The server: the quota table and the connected sockets *)

Record Server := mkServer {
  connections : gmap string Client;
  sockets : gmap string Connection
}.

(** A handshake of the socket [id] from the address [clientId]: the
    middleware runs, and only an accepted socket reaches the [connection]
    handler. *)
Definition handshake (id clientId : string) (now : Z) (srv : Server) : Admission * Server :=
  match rateLimit clientId now (connections srv) with
  | (next_ok, connections') =>
      (next_ok, mkServer connections' (<[id := connected id]> (sockets srv)))
  | (next_error msg, connections') => (next_error msg, mkServer connections' (sockets srv))
  end.

(** [disconnect]: the socket goes; [cleanupClient] looks for entries of
    [connections] whose [socketId] is the socket's id, and no entry has a
    [socketId], so the quota table is left as it is. *)
Definition disconnect (id : string) (srv : Server) : Server :=
  mkServer (connections srv) (delete id (sockets srv)).

(** * Part II: notions used in the statements *)

(** ** The ledger *)

(** What the score step of [addMatchEvent] does to the connection. *)
Definition score_step (matchId : Z) (eventData : EventData) (match_ : Match)
    : Database → Database :=
  if decide (jenis eventData = GOL) then
    update_match matchId (increment_score (scoreField (Some (id_team eventData)) match_))
  else if decide (jenis eventData = BUNUH_DIRI) then
    update_match matchId
      (increment_score (scoreField (opponentTeam eventData match_) match_))
  else id.

(** What the statistics step of [addMatchEvent] does to the connection. *)
Definition stats_step (eventData : EventData) (match_ : Match) : Database → Database :=
  if decide (jenis eventData = GOL) then
    set_pemain_event
      (fmap (λ pe, if decide (pe_id_pemain pe = id_pemain eventData
                              ∧ pe_id_kategori pe = m_id_kategori match_)
                   then increment_gol pe else pe))
  else id.

(** The event row that [addMatchEvent] inserts. *)
Definition new_event (db : Database) (matchId : Z) (eventData : EventData)
    (match_ : Match) (userId : Z) : MatchEvent :=
  mkMatchEvent (auto_increment me_id (match_events db)) matchId (m_id_kategori match_)
    (id_team eventData) (id_pemain eventData) (jenis eventData) (menit eventData) userId.

(** The database a successful [addMatchEvent] commits. *)
Definition committed (db : Database) (matchId : Z) (eventData : EventData)
    (match_ : Match) (userId : Z) : Database :=
  stats_step eventData match_
    (score_step matchId eventData match_
       (set_match_events (λ rows, rows ++ [new_event db matchId eventData match_ userId]) db)).

(** The player has a [pemain_event] row for this category under this team. *)
Definition registered (db : Database) (player kategori team : Z) : Prop :=
  ∃ pe, pe ∈ pemain_event db ∧ pe_id_pemain pe = player
        ∧ pe_id_kategori pe = kategori ∧ pe_id_team pe = team.

(** The goal counters ([jumlah_gol]) a player holds in a category, one per
    [pemain_event] row. *)
Definition career_goals (db : Database) (player kategori : Z) : list Z :=
  jumlah_gol <$> filter (λ pe, pe_id_pemain pe = player ∧ pe_id_kategori pe = kategori)
                   (pemain_event db).


(** The team an event of the ledger credits: the [scoringTeam] that
    [addMatchEvent] hands to [updateScoreFromEvent] for that event (the
    event's team for [GOL], its opponent for [BUNUH_DIRI]); cards credit no
    team. *)
Definition scoringTeam (match_ : Match) (me : MatchEvent) : option (option Z) :=
  if decide (me_jenis me = GOL) then Some (Some (me_id_team me))
  else if decide (me_jenis me = BUNUH_DIRI) then
    Some (if decide (Some (me_id_team me) = team_1 match_)
          then team_2 match_ else team_1 match_)
  else None.

(** How many events of the match's ledger credit this team. *)
Definition events_crediting (db : Database) (matchId : Z) (match_ : Match)
    (team : option Z) : nat :=
  length (filter (λ me, id_match me = matchId ∧ scoringTeam match_ me = Some team)
            (match_events db)).



(** ** The generated fixture *)

(** The row that [generateGroupMatches] inserts, and the element it
    returns: neither names a team. *)
Definition nameless_row (db : Database) (options : GroupOptions) (userId : Z) : Match :=
  mkMatch (auto_increment m_id (matches db)) (o_id_kategori options) None None
    (Some (match_day_start options + default 46800 (jam_awal options)))
    (Some (o_grup options)) belum_main 0 0 userId None.
Definition nameless_fixture (db : Database) (options : GroupOptions) : Fixture :=
  mkFixture (auto_increment m_id (matches db)) None None
    (match_day_start options + default 46800 (jam_awal options)) (o_grup options).

(** Following the specification's words: the number of fixtures of a
    round robin among [n] teams. *)
Definition round_robin_size (n : nat) : nat := (n * (n - 1) / 2)%nat.

(** ** Rooms and handshakes *)

(** The room a message is about, and whether it asks to join. *)
Definition room_of (msg : RoomMessage) : string :=
  match msg with
  | join_match matchId | leave_match matchId => match_room matchId
  | join_category categoryId | leave_category categoryId => category_room categoryId
  end.
Definition is_join (msg : RoomMessage) : Prop :=
  match msg with
  | join_match _ | join_category _ => True
  | leave_match _ | leave_category _ => False
  end.

(** The instant of the socket's last accepted request to join the room, as
    [joinCooldowns] records it. *)
Definition last_accepted_join (socket : Connection) (room : string) : option Z :=
  joinCooldowns socket !! (socket_id socket ++ room)%string.

(** Handshakes of one address at the given instants, on the quota table:
    the admissions, in order, and the table afterwards. *)
Fixpoint handshakes (clientId : string) (times : list Z) (connections : gmap string Client)
    : list Admission * gmap string Client :=
  match times with
  | [] => ([], connections)
  | now :: times =>
      let '(a, connections') := rateLimit clientId now connections in
      let '(rest, connections'') := handshakes clientId times connections' in
      (a :: rest, connections'')
  end.

(** The instants at which a handshake was accepted. *)
Definition accepted_at (times : list Z) (admissions : list Admission) : list Z :=
  omap (λ ta, match ta.2 with next_ok => Some ta.1 | next_error _ => None end)
    (zip times admissions).

(** * Part III: sample data for the worked examples *)

(** Category 7; team 1 plays team 2 in match 1, which is in progress.
    Players 10, 20 and 30 are registered under teams 1, 2 and 3. *)
Definition live_match : Match :=
  mkMatch 1 7 (Some 1) (Some 2) None (Some "A") sedang_main 0 0 100 None.

Definition sample_db (m : Match) : Database :=
  mkDatabase [m] []
    [mkPemainEvent 1 10 7 1 9 0; mkPemainEvent 2 20 7 2 4 0; mkPemainEvent 3 30 7 3 11 0]
    [mkPemain 10 "Ali"; mkPemain 20 "Budi"; mkPemain 30 "Citra"]
    [mkTeam 1 "Garuda"; mkTeam 2 "Rajawali"; mkTeam 3 "Elang"]
    [mkMatchLineup 1 1 1] [mkMatchStaffLineup 1 1 1] [] [] [] [].

Definition live_db : Database := sample_db live_match.


(** A goal recorded for team 3, which does not play in the sample match, by
    player 10 of team 1. *)
Definition outsider_goal : EventData := mkEventData 3 10 GOL 5.

(** A goal recorded for team 1 by player 30, who is registered under team 3
    and under neither team of the sample match. *)
Definition stranger_goal : EventData := mkEventData 1 30 GOL 5.

(** The sample with a fourth player, 40, who is registered for category 8
    only and so holds no goal counter for category 7, the category of the
    sample match; and a goal recorded for team 1 by that player. *)
Definition guest_db : Database :=
  mkDatabase [live_match] []
    [mkPemainEvent 1 10 7 1 9 0; mkPemainEvent 2 20 7 2 4 0; mkPemainEvent 3 30 7 3 11 0;
     mkPemainEvent 4 40 8 1 5 0]
    [mkPemain 10 "Ali"; mkPemain 20 "Budi"; mkPemain 30 "Citra"; mkPemain 40 "Dedi"]
    [mkTeam 1 "Garuda"; mkTeam 2 "Rajawali"; mkTeam 3 "Elang"]
    [mkMatchLineup 1 1 1] [mkMatchStaffLineup 1 1 1] [] [] [] [].
Definition guest_goal : EventData := mkEventData 1 40 GOL 5.

(** The sample match once finished 2-1, and an update that keeps the status
    [selesai] while rewriting the first score. *)
Definition finished_match : Match :=
  mkMatch 1 7 (Some 1) (Some 2) None (Some "A") selesai 2 1 100 None.
Definition finished_db : Database :=
  mkDatabase [finished_match]
    [mkMatchEvent 1 1 7 1 10 GOL 12 100; mkMatchEvent 2 1 7 2 20 GOL 40 100;
     mkMatchEvent 3 1 7 1 10 GOL 77 100]
    [mkPemainEvent 1 10 7 1 9 2; mkPemainEvent 2 20 7 2 4 1]
    [mkPemain 10 "Ali"; mkPemain 20 "Budi"]
    [mkTeam 1 "Garuda"; mkTeam 2 "Rajawali"]
    [mkMatchLineup 1 1 1; mkMatchLineup 2 1 2] [mkMatchStaffLineup 1 1 1] [] [] [] [].

(** Group A of category 7 has four teams, registered out of name order;
    the category is set up for a final four and has no standings yet. *)
Definition group_db : Database :=
  mkDatabase [] [] [] []
    [mkTeam 1 "Garuda"; mkTeam 2 "Rajawali"; mkTeam 3 "Elang"; mkTeam 4 "Banteng"]
    [] [] [] [mkEventCategory 7 "final_four"]
    [mkEventTeam 7 1 "A"; mkEventTeam 7 2 "A"; mkEventTeam 7 3 "A"; mkEventTeam 7 4 "A";
     mkEventTeam 7 5 "B"]
    [].
Definition group_options : GroupOptions := mkGroupOptions 7 "A" 86400000 None None.

(** The standings of the example: A and C in one group, B and D in the
    other, with a fifth team that does not qualify. *)
Definition bracket_db : Database :=
  mkDatabase [] [] [] []
    [mkTeam 1 "A"; mkTeam 2 "B"; mkTeam 3 "C"; mkTeam 4 "D"; mkTeam 5 "E"]
    [] [] [] [mkEventCategory 7 "final_four"; mkEventCategory 8 "liga"]
    [mkEventTeam 7 1 "X"; mkEventTeam 7 2 "Y"; mkEventTeam 7 3 "X"; mkEventTeam 7 4 "Y";
     mkEventTeam 7 5 "X"]
    [mkKlasemen 7 4 3 (-1) 2; mkKlasemen 7 3 6 1 4; mkKlasemen 7 2 9 2 5;
     mkKlasemen 7 1 9 5 8; mkKlasemen 7 5 0 (-7) 1].

(** One handshake at instant 1000, forty-nine at 60000 and two at 61001. *)
Definition burst : list Z := 1000 :: replicate 49 60000 ++ [61001; 61001].

(** A client joins the room of match 5, leaves it, and asks to join
    again. *)
Definition churn : list (Z * RoomMessage) :=
  [(10000, join_match "5"); (11000, leave_match "5"); (11500, join_match "5")].

(** * Part IV: further parts of the source *)

(** ** Creating a match ([createMatch]) *)

Definition TeamsNotRegistered : AppError :=
  mkAppError "One or both teams are not registered for this category" 400.
Definition SchedulingConflict : AppError :=
  mkAppError "Teams have scheduling conflict at this time" 400.

(** The status that the conflict check leaves out. *)
Definition cancelled : string := "cancelled".

(** The request body of [POST /api/matches]. *)
Record MatchData := mkMatchData {
  d_id_kategori : Z;
  d_team_1 : Z;
  d_team_2 : Z;
  d_waktu : Z;
  d_grup : option string
}.

(** [SELECT et.id_team, t.nama_club FROM event_teams et JOIN teams t ON
    et.id_team = t.id WHERE et.id_kategori = ? AND et.id_team IN (?, ?)]. *)
Definition registeredTeams (conn : Database) (id_kategori t1 t2 : Z) : list GroupTeam :=
  et ← filter (λ et, et_id_kategori et = id_kategori
                     ∧ (et_id_team et = t1 ∨ et_id_team et = t2))
         (event_teams conn);
  t ← filter (λ t, t_id t = et_id_team et) (teams conn);
  [mkGroupTeam (et_id_team et) (nama_club t)].

(** [SELECT id FROM matches WHERE waktu = ? AND (team_1 IN (?, ?) OR team_2
    IN (?, ?)) AND status != 'cancelled']. *)
Definition conflictQuery (conn : Database) (waktu_ t1 t2 : Z) : list Z :=
  m_id <$> filter (λ m, waktu m = Some waktu_
                        ∧ ((team_1 m = Some t1 ∨ team_1 m = Some t2)
                           ∨ (team_2 m = Some t1 ∨ team_2 m = Some t2))
                        ∧ status m ≠ cancelled)
             (matches conn).

(** [matchData.grup || null]: a missing or empty label is stored as NULL. *)
Definition grup_or_null (g : option string) : option string :=
  match g with
  | Some g => if decide (g = "") then None else Some g
  | None => None
  end.

(** The row that [createMatch] inserts under the id [insertId]. *)
Definition created_row (insertId : Z) (matchData : MatchData) (userId : Z) : Match :=
  mkMatch insertId (d_id_kategori matchData) (Some (d_team_1 matchData))
    (Some (d_team_2 matchData)) (Some (d_waktu matchData))
    (grup_or_null (d_grup matchData)) belum_main 0 0 userId None.

(** [teams] and [conflicts] are what [connection.query] resolved to, the
    arrays of two elements; it is their [length] that the checks read. *)
Definition createMatch (matchData : MatchData) (userId : Z)
    : Database → result (option Match) * Database :=
  transaction (λ pool,
    (* Validate teams exist and are in the same category *)
    let* teams_ := connection_query (λ conn,
      registeredTeams conn (d_id_kategori matchData) (d_team_1 matchData)
        (d_team_2 matchData)) in
    if decide (length teams_ ≠ 2%nat) then tx_throw TeamsNotRegistered
    else
      (* Check for scheduling conflicts *)
      let* conflicts := connection_query (λ conn,
        conflictQuery conn (d_waktu matchData) (d_team_1 matchData)
          (d_team_2 matchData)) in
      if decide (0 < length conflicts)%nat then tx_throw SchedulingConflict
      else
        (* Insert match *)
        let* insertId := (λ conn,
          let insertId := auto_increment m_id (matches conn) in
          Ok (insertId,
              set_matches (λ rows, rows ++ [created_row insertId matchData userId]) conn)) in
        (* Get the created match *)
        tx_ret (getMatchById pool insertId)).

(** ** Match statistics ([getMatchStatistics]) *)

(** A row of the statistics query: [me.id_team, me.jenis, COUNT( * ) as
    count, t.nama_club AS team_name]. *)
Record StatRow := mkStatRow {
  st_id_team : Z;
  st_jenis : string;
  st_count : Z;
  st_team_name : string
}.

(** A value of the [teamStats] object. *)
Record TeamStats := mkTeamStats {
  team_name : string;
  goals : Z;
  yellow_cards : Z;
  red_cards : Z;
  own_goals : Z
}.

#[global] Instance TeamStats_eq_dec : EqDecision TeamStats.
Proof. solve_decision. Defined.

(** The events of the match joined with their team ([JOIN teams t ON
    me.id_team = t.id]), each reduced to its grouping key [(me.id_team,
    me.jenis, t.nama_club)]. *)
Definition stat_keys (pool : Database) (id : Z) : list (Z * string * string) :=
  me ← filter (λ me, id_match me = id) (match_events pool);
  t ← filter (λ t, t_id t = me_id_team me) (teams pool);
  [(me_id_team me, me_jenis me, nama_club t)].

(** [GROUP BY me.id_team, me.jenis, t.nama_club] with [COUNT( * )]: one row
    for each key that occurs, with the number of its occurrences. *)
Definition stat_groups (pool : Database) (id : Z) : list StatRow :=
  (λ k, mkStatRow k.1.1 k.1.2
          (Z.of_nat (length (filter (λ k', k' = k) (stat_keys pool id)))) k.2)
  <$> remove_dups (stat_keys pool id).

Definition set_goals (n : Z) (s : TeamStats) : TeamStats :=
  mkTeamStats (team_name s) n (yellow_cards s) (red_cards s) (own_goals s).
Definition set_yellow_cards (n : Z) (s : TeamStats) : TeamStats :=
  mkTeamStats (team_name s) (goals s) n (red_cards s) (own_goals s).
Definition set_red_cards (n : Z) (s : TeamStats) : TeamStats :=
  mkTeamStats (team_name s) (goals s) (yellow_cards s) n (own_goals s).
Definition set_own_goals (n : Z) (s : TeamStats) : TeamStats :=
  mkTeamStats (team_name s) (goals s) (yellow_cards s) (red_cards s) n.

(** The body of [stats.forEach]: create the team's entry when it is
    missing, then store the count in the field of the row's kind. *)
Definition format_stat (teamStats : gmap Z TeamStats) (stat : StatRow) : gmap Z TeamStats :=
  let teamStats :=
    match teamStats !! st_id_team stat with
    | None => <[st_id_team stat := mkTeamStats (st_team_name stat) 0 0 0 0]> teamStats
    | Some _ => teamStats
    end in
  if decide (st_jenis stat = GOL) then
    alter (set_goals (st_count stat)) (st_id_team stat) teamStats
  else if decide (st_jenis stat = KUNING) then
    alter (set_yellow_cards (st_count stat)) (st_id_team stat) teamStats
  else if decide (st_jenis stat = MERAH) then
    alter (set_red_cards (st_count stat)) (st_id_team stat) teamStats
  else if decide (st_jenis stat = BUNUH_DIRI) then
    alter (set_own_goals (st_count stat)) (st_id_team stat) teamStats
  else teamStats.

Section Statistics.
Context (collate : relation string) `{!RelDecision collate}.

(** [ORDER BY me.id_team, me.jenis]. *)
Definition by_team_kind (a b : StatRow) : Prop :=
  st_id_team a < st_id_team b
  ∨ (st_id_team a = st_id_team b ∧ collate (st_jenis a) (st_jenis b)).

#[global] Instance by_team_kind_dec : RelDecision by_team_kind.
Proof. intros a b. unfold by_team_kind. apply _. Defined.

Definition statsQuery (pool : Database) (id : Z) : list StatRow :=
  merge_sort by_team_kind (stat_groups pool id).

Definition getMatchStatistics (pool : Database) (id : Z) : gmap Z TeamStats :=
  foldl format_stat ∅ (statsQuery pool id).
End Statistics.

(** ** Notions for the statements about the service *)

(** How many events of a kind the ledger of a match holds for a team. *)
Definition ledger_count (db : Database) (id team : Z) (kind : string) : Z :=
  Z.of_nat (length (filter (λ me, id_match me = id ∧ me_id_team me = team
                                  ∧ me_jenis me = kind) (match_events db))).

(** The calls of the service that write to existing matches or add new
    ones, [deleteMatch] left aside. *)
Inductive Command :=
| call_createMatch (matchData : MatchData) (userId : Z)
| call_updateMatch (id : Z) (updateData : UpdateData) (userId : Z)
| call_updateScore (id skor1 skor2 userId : Z)
| call_addMatchEvent (matchId : Z) (eventData : EventData) (userId : Z)
| call_generateGroupMatches (options : GroupOptions) (userId : Z)
| call_generateBracketMatches (id_kategori : Z) (type : string) (userId : Z).

Section Commands.
Context (collate : relation string) `{!RelDecision collate}.

(** The database a call commits (the database as it was, when the call
    throws). *)
Definition run_command (c : Command) (db : Database) : Database :=
  match c with
  | call_createMatch matchData userId => (createMatch matchData userId db).2
  | call_updateMatch id updateData userId => (updateMatch id updateData userId db).2
  | call_updateScore id skor1 skor2 userId => (updateScore id skor1 skor2 userId db).2
  | call_addMatchEvent matchId eventData userId =>
      (addMatchEvent matchId eventData userId db).2
  | call_generateGroupMatches options userId =>
      (generateGroupMatches collate options userId db).2
  | call_generateBracketMatches id_kategori type userId =>
      (generateBracketMatches collate id_kategori type userId db).2
  end.

Definition run_commands (cs : list Command) (db : Database) : Database :=
  foldl (λ db c, run_command c db) db cs.
End Commands.


(** The count that the rows of the statistics query leave in a field: the
    count of the last row of that team and kind, or the initial 0. *)
Definition stat_of (rows : list StatRow) (team : Z) (kind : string) : Z :=
  default 0 (st_count <$> last (filter (λ r, st_id_team r = team ∧ st_jenis r = kind) rows)).

(** ** The socket server over time ([setupConnectionHandling], the [emitTo]
    methods) *)

(** What happens at the server: a handshake of a new socket, a room message
    on a socket, or the disconnection of a socket. *)
Inductive ServerEvent :=
| ev_handshake (id clientId : string) (now : Z)
| ev_message (id : string) (now : Z) (msg : RoomMessage)
| ev_disconnect (id : string).

(** A room message reaches the handlers of its socket, if it is connected. *)
Definition deliver (id : string) (now : Z) (msg : RoomMessage) (srv : Server) : Server :=
  mkServer (connections srv) (alter (on_message now msg) id (sockets srv)).

Definition server_step (srv : Server) (ev : ServerEvent) : Server :=
  match ev with
  | ev_handshake id clientId now => (handshake id clientId now srv).2
  | ev_message id now msg => deliver id now msg srv
  | ev_disconnect id => disconnect id srv
  end.

(** The server after a sequence of events, from its start with no quota
    entries and no sockets. *)
Definition server_run (evs : list ServerEvent) : Server :=
  foldl server_step (mkServer ∅ ∅) evs.

(** [io.to(room)]: the ids of the connected sockets that are in the room. *)
Definition to (room : string) (srv : Server) : gset string :=
  dom (filter (λ kv, room ∈ rooms kv.2) (sockets srv)).

(** The sockets that [emitToGeneral], [emitToAll], [emitToMatch] and
    [emitToCategory] reach. *)
Definition emitToGeneral (srv : Server) : gset string := to "general" srv.
Definition emitToAll (srv : Server) : gset string := dom (sockets srv).
Definition emitToMatch (matchId : string) (srv : Server) : gset string :=
  to (match_room matchId) srv.
Definition emitToCategory (categoryId : string) (srv : Server) : gset string :=
  to (category_room categoryId) srv.

(** The addresses that have sent a handshake. *)
Definition addresses (evs : list ServerEvent) : gset string :=
  list_to_set (omap (λ ev, match ev with
                           | ev_handshake _ clientId _ => Some clientId
                           | _ => None
                           end) evs).

(** ** Request helpers ([BaseController]) *)

(** What a read [obj[key]] of a plain object gives when it is not
    [undefined]: the value of an own property, or the member of that name
    that the object inherits from its prototype. *)
Inductive Member (V : Type) : Type :=
| own_value (v : V)
| inherited (name : string).
Arguments own_value {V} v.
Arguments inherited {V} name.

Section Request.
(** The values of query parameters (strings, arrays or objects), and the
    names that [req.query] inherits: those of [Object.prototype] when the
    query parser builds plain objects, none when it builds objects without
    a prototype. The parser is not part of the source. *)
Context {V : Type} (inherited_names : list string).

(** [req.query[key]]: the own property, which is a parameter of the query
    string, or else the inherited member. *)
Definition read (query : gmap string V) (key : string) : option (Member V) :=
  match query !! key with
  | Some v => Some (own_value v)
  | None => if decide (key ∈ inherited_names) then Some (inherited key) else None
  end.

(** [filters[key] = value] on the object [filters], which starts as [{}]:
    ['__proto__'] names the accessor of [Object.prototype], and assigning to
    it creates no property. *)
Definition assign (filters : gmap string (Member V)) (key : string) (value : Member V)
    : gmap string (Member V) :=
  if decide (key = "__proto__") then filters else <[key := value]> filters.

(** [getFilterParams]: copy what the allowed names read, unless it is
    [undefined]. The result is given by its own properties. *)
Definition getFilterParams (query : gmap string V) (allowedFilters : list string)
    : gmap string (Member V) :=
  foldl (λ filters filter,
           match read query filter with
           | Some value => assign filters filter value
           | None => filters
           end) ∅ allowedFilters.
End Request.

(** *** Numbers

    The numbers of [getPaginationParams] are doubles that hold integers:
    [parseInt] gives [NaN], an infinity or an integer, and the differences
    and products of integers are rounded to the nearest double, ties to the
    even one. Below [2^53] every integer is a double. *)
Inductive Num :=
| NaN
| Infinity
| NegInfinity
| Fin (z : Z).

(** The double nearest to a non-negative integer. *)
Definition round_nonneg (z : Z) : Num :=
  if z <? 2 ^ 53 then Fin z
  else
    let e := Z.log2 z - 52 in
    let q := z / 2 ^ e in
    let r := z mod 2 ^ e in
    let q' := if 2 * r <? 2 ^ e then q
              else if 2 ^ e <? 2 * r then q + 1
              else if Z.even q then q else q + 1 in
    if 2 ^ 1024 <=? q' * 2 ^ e then Infinity else Fin (q' * 2 ^ e).

Definition negate (x : Num) : Num :=
  match x with
  | NaN => NaN
  | Infinity => NegInfinity
  | NegInfinity => Infinity
  | Fin z => Fin (- z)
  end.

Definition to_double (z : Z) : Num :=
  if 0 <=? z then round_nonneg z else negate (round_nonneg (- z)).



Definition times (a b : Num) : Num :=
  match a, b with
  | NaN, _ | _, NaN => NaN
  | Fin a, Fin b => to_double (a * b)
  | Fin z, inf | inf, Fin z =>
      if decide (z = 0) then NaN else if decide (0 < z) then inf else negate inf
  | Infinity, Infinity | NegInfinity, NegInfinity => Infinity
  | Infinity, NegInfinity | NegInfinity, Infinity => NegInfinity
  end.


Section Pagination.
(** The values of query parameters, and [parseInt] on such a value. *)
Context {V : Type} (parseInt : V → Num).


End Pagination.

(** ** The error handler ([errorHandler]) *)

(** [err.code]: a number (as in [11000]) or a string (as in
    ['ER_DUP_ENTRY']). *)
Inductive ErrCode :=
| code_number (n : Z)
| code_string (s : string).

#[global] Instance ErrCode_eq_dec : EqDecision ErrCode.
Proof. solve_decision. Defined.

(** A thrown value as the handler reads it: its [name], [message],
    [statusCode], [code], the truth of [isOperational], and the messages of
    the values of [errors], each possibly missing. *)
Record JsError := mkJsError {
  e_name : string;
  e_message : option string;
  e_statusCode : option Z;
  e_code : option ErrCode;
  e_isOperational : bool;
  e_errors : option (list (option string))
}.

(** [new AppError(message, statusCode)]: the name is the class name and
    [isOperational] defaults to [true]. *)
Definition thrown (e : AppError) : JsError :=
  mkJsError "AppError" (Some (message e)) (Some (statusCode e)) None true None.

(** What the handler hands to [ApiResponse.error]. *)
Record ErrorResponse := mkErrorResponse { r_message : string; r_statusCode : Z }.

(** One [if] of the handler: when the condition holds, replace the status
    and the message. *)
Definition override (P : Prop) `{Decision P} (statusCode : Z) (message_ : string)
    (current : Z * string) : Z * string :=
  if decide P then (statusCode, message_) else current.

(** [errorHandler(err, req, res, next)] under the given [NODE_ENV]. The
    result is [None] when the handler itself throws, which it does on a
    ['ValidationError'] without [errors] ([Object.values(undefined)]). *)
Definition errorHandler (NODE_ENV : option string) (err : JsError) : option ErrorResponse :=
  let current := (default 500 (e_statusCode err),
                  default "Internal Server Error" (e_message err)) in
  (* Handle specific error types *)
  current ← (if decide (e_name err = "ValidationError") then
               errors ← e_errors err;
               Some (400, String.concat ", " (default "" <$> errors))
             else Some current);
  let current := override (e_name err = "CastError") 400 "Invalid ID format" current in
  let current := override (e_code err = Some (code_number 11000)) 409
                   "Duplicate field value" current in
  let current := override (e_name err = "JsonWebTokenError") 401 "Invalid token" current in
  let current := override (e_name err = "TokenExpiredError") 401 "Token expired" current in
  (* Database errors *)
  let current := override (e_code err = Some (code_string "ER_DUP_ENTRY")) 409
                   "Duplicate entry" current in
  let current := override (e_code err = Some (code_string "ER_NO_REFERENCED_ROW_2")) 400
                   "Referenced record does not exist" current in
  (* Don't leak error details in production *)
  let message_ := if decide (NODE_ENV = Some "production" ∧ e_isOperational err = false)
                  then "Something went wrong" else current.2 in
  Some (mkErrorResponse message_ current.1).

(** ** The controller ([MatchController]) *)

(** What a handler hands to [ApiResponse]: [success(res, data, message,
    statusCode)] or [error(res, message, statusCode)]. *)
Inductive ApiCall (D : Type) : Type :=
| api_success (data : D) (message_ : string) (statusCode_ : Z)
| api_error (message_ : string) (statusCode_ : Z).
Arguments api_success {D} data message_ statusCode_.
Arguments api_error {D} message_ statusCode_.

(** [asyncHandler]: a rejection of the handler goes to [next], and so to
    the error handler. *)
Definition asyncHandler {D} (NODE_ENV : option string)
    (outcome : result (ApiCall D) * Database) : option (ApiCall D) * Database :=
  match outcome with
  | (Ok response, db) => (Some response, db)
  | (Throw e, db) =>
      ((λ r, api_error (r_message r) (r_statusCode r)) <$> errorHandler NODE_ENV (thrown e),
       db)
  end.

(** [DELETE /api/matches/:id]. *)
Definition MatchController_deleteMatch (NODE_ENV : option string) (id userId : Z)
    (db : Database) : option (ApiCall unit) * Database :=
  asyncHandler NODE_ENV
    (match deleteMatch id userId db with
     | (Ok deleted, db') =>
         if negb deleted then (Ok (api_error "Match not found" 404), db')
         else (Ok (api_success tt "Match deleted successfully" 200), db')
     | (Throw e, db') => (Throw e, db')
     end).


Definition MatchController_generateBracketMatches (collate : relation string)
    `{!RelDecision collate} (NODE_ENV : option string) (id_kategori : Z) (type : string)
    (userId : Z) (db : Database) : option (ApiCall BracketResult) * Database :=
  asyncHandler NODE_ENV
    (match generateBracketMatches collate id_kategori type userId db with
     | (Ok bracket, db') =>
         (Ok (api_success bracket "Bracket matches generated successfully" 201), db')
     | (Throw e, db') => (Throw e, db')
     end).

(** ** Token verification ([verifyToken], [authMiddleware]) *)

(** The claims of a verified token that the middleware reads: [exp], in
    seconds, and [role]. *)
Record Decoded := mkDecoded { exp : option Z; role : option string }.

#[global] Instance Decoded_eq_dec : EqDecision Decoded.
Proof. solve_decision. Defined.

(** The options of [verifyToken], with their defaults in
    [default_options]. *)
Record AuthOptions := mkAuthOptions {
  cookieName : string;
  requireRole : option string;
  allowedRoles : list string;
  optional : bool
}.
Definition default_options : AuthOptions := mkAuthOptions "token" None [] false.

(** What the middleware reads of the request: the cookies and the
    [Authorization] header. *)
Record AuthRequest := mkAuthRequest {
  cookies : gmap string string;
  authorization : option string
}.

(** What the middleware does: [next()], with [req.user] and [req.token] set
    or not, or one of the two refusals of [ApiResponse]. *)
Inductive AuthOutcome :=
| auth_next (user : option (Decoded * string))
| auth_unauthorized (msg : string)
| auth_forbidden (msg : string).

(** [s.slice(n)]. *)
Fixpoint slice (n : nat) (s : string) : string :=
  match n, s with
  | O, _ => s
  | S n, String _ s => slice n s
  | S _, EmptyString => EmptyString
  end.

(** [req.headers.authorization?.startsWith('Bearer ') ?
    req.headers.authorization.slice(7) : null]. *)
Definition bearer (authorization_ : option string) : option string :=
  match authorization_ with
  | Some header => if String.prefix "Bearer " header then Some (slice 7 header) else None
  | None => None
  end.

(** [req.cookies[cookieName] || (...)], and then [if (!token)]: a missing
    or empty cookie gives way to the header, and an empty token counts as
    none. *)
Definition request_token (cookieName_ : string) (req : AuthRequest) : option string :=
  let token :=
    match cookies req !! cookieName_ with
    | Some cookie => if decide (cookie = "") then bearer (authorization req) else Some cookie
    | None => bearer (authorization req)
    end in
  match token with
  | Some token => if decide (token = "") then None else Some token
  | None => None
  end.

(** [decoded.exp && decoded.exp < Date.now() / 1000]. *)
Definition expired (decoded : Decoded) (now : Z) : Prop :=
  match exp decoded with
  | Some e => e ≠ 0 ∧ e * 1000 < now
  | None => False
  end.

(** [requireRole && decoded.role !== requireRole]. *)
Definition lacks_required_role (options : AuthOptions) (decoded : Decoded) : Prop :=
  match requireRole options with
  | Some r => r ≠ "" ∧ role decoded ≠ Some r
  | None => False
  end.

(** [allowedRoles.includes(decoded.role)]. *)
Definition includes_role (roles : list string) (decoded : Decoded) : Prop :=
  match role decoded with
  | Some r => r ∈ roles
  | None => False
  end.

#[global] Instance expired_dec decoded now : Decision (expired decoded now).
Proof. unfold expired. destruct (exp decoded); apply _. Defined.
#[global] Instance lacks_required_role_dec options decoded :
  Decision (lacks_required_role options decoded).
Proof. unfold lacks_required_role. destruct (requireRole options); apply _. Defined.
#[global] Instance includes_role_dec roles decoded : Decision (includes_role roles decoded).
Proof. unfold includes_role. destruct (role decoded); apply _. Defined.

Section Verification.
(** [jwt.verify(token, process.env.JWT_SECRET)]: the claims of a token that
    verifies, [None] when it throws. *)
Context (verify : string → option Decoded).

(** The middleware that [verifyToken(options)] returns, run at the instant
    [now] (milliseconds). *)
Definition verifyToken (options : AuthOptions) (now : Z) (req : AuthRequest) : AuthOutcome :=
  (* Get token from cookie or Authorization header *)
  match request_token (cookieName options) req with
  | None =>
      if optional options then auth_next None
      else auth_unauthorized "Access token required"
  | Some token =>
      (* Verify token *)
      match verify token with
      | None =>
          if optional options then auth_next None
          else auth_unauthorized "Invalid token"
      | Some decoded =>
          (* Check if token is expired *)
          if decide (expired decoded now) then auth_unauthorized "Token expired"
          (* Role validation *)
          else if decide (lacks_required_role options decoded)
          then auth_forbidden ("Requires " ++ default "" (requireRole options) ++ " role")
          else if decide (allowedRoles options ≠ []
                          ∧ ¬ includes_role (allowedRoles options) decoded)
          then auth_forbidden "Insufficient permissions"
          (* Add user to request *)
          else auth_next (Some (decoded, token))
      end
  end.

(** The predefined middleware of [authMiddleware]. *)
Definition auth_required : Z → AuthRequest → AuthOutcome := verifyToken default_options.
Definition auth_admin : Z → AuthRequest → AuthOutcome :=
  verifyToken (mkAuthOptions "admin_token" (Some "admin") [] false).
Definition auth_eventOrganizer : Z → AuthRequest → AuthOutcome :=
  verifyToken (mkAuthOptions "eo_token" (Some "event_organizer") [] false).
Definition auth_team : Z → AuthRequest → AuthOutcome :=
  verifyToken (mkAuthOptions "token" None ["team"] false).
Definition auth_adminOrEO : Z → AuthRequest → AuthOutcome :=
  verifyToken (mkAuthOptions "token" None ["admin"; "event_organizer"] false).
(** [hasRole(roles)]: [roles] is an array of roles or a single role. *)
Definition auth_hasRole (roles : list string + string) : Z → AuthRequest → AuthOutcome :=
  verifyToken (mkAuthOptions "token" None
                 (match roles with inl roles => roles | inr r => [r] end) false).
End Verification.

(** A verifier for the examples: the token ["good"] verifies as an admin
    without expiry, and nothing else verifies. *)
Definition sample_verify (token : string) : option Decoded :=
  if decide (token = "good") then Some (mkDecoded None (Some "admin")) else None.

(** A request that carries the cookie [token=good] and no header. *)
Definition sample_auth_request : AuthRequest := mkAuthRequest {["token" := "good"]} None.
(** * Part V: the properties of the specification *)

(** ** Facts about tables *)

Lemma getMatchById_Some pool id m :
  getMatchById pool id = Some m → m ∈ matches pool ∧ m_id m = id.
Proof.
  unfold getMatchById. intros H. apply head_Some_elem_of in H.
  by apply list_elem_of_filter in H as [? ?].
Qed.

Lemma getMatchById_None pool id :
  getMatchById pool id = None ↔ ∀ m, m ∈ matches pool → m_id m ≠ id.
Proof.
  unfold getMatchById. rewrite head_None. split.
  - intros H m Hm Hid.
    assert (m ∈ filter (λ m, m_id m = id) (matches pool)) as Hin
      by (apply list_elem_of_filter; done).
    rewrite H in Hin. by apply not_elem_of_nil in Hin.
  - intros H. destruct (filter _ _) as [|m l] eqn:E; [done|].
    assert (m ∈ filter (λ m, m_id m = id) (matches pool)) as Hin
      by (rewrite E; left).
    apply list_elem_of_filter in Hin as [Hid Hm]. by destruct (H m Hm).
Qed.

(** Reading a match after [UPDATE matches SET ... WHERE id = ?], when the
    update keeps the id column. *)
Lemma getMatchById_update_match db id id' f :
  (∀ m, m_id (f m) = m_id m) →
  getMatchById (update_match id f db) id' =
  (λ m, if decide (m_id m = id) then f m else m) <$> getMatchById db id'.
Proof.
  intros Hf. unfold getMatchById, update_match. simpl.
  induction (matches db) as [|m l IH]; [done|].
  rewrite fmap_cons, !filter_cons.
  assert (m_id (if decide (m_id m = id) then f m else m) = m_id m) as Hid
    by (case_decide; [apply Hf|done]).
  rewrite Hid. destruct (decide (m_id m = id')); [done|apply IH].
Qed.


(** ** The shape of [addMatchEvent] *)

(** Once the match is found in progress the call goes through: the array
    that the player query resolves to has a first element whatever its rows
    are. *)
Lemma addMatchEvent_unfold matchId eventData userId db :
  addMatchEvent matchId eventData userId db =
  match getMatchById db matchId with
  | None => (Throw NotFound, db)
  | Some match_ =>
    if decide (status match_ ≠ sedang_main) then (Throw MatchNotInProgress, db)
    else
      let db' := committed db matchId eventData match_ userId in
      (Ok (Some (rows_array
                   (eventDetailQuery db' (auto_increment me_id (match_events db))))),
       db')
  end.
Proof.
  unfold addMatchEvent, transaction.
  destruct (getMatchById db matchId) as [m|]; [|done].
  case_decide; [done|].
  unfold tx_bind at 1. unfold connection_query at 1. simpl head. cbv iota beta.
  unfold committed, score_step, stats_step, new_event, tx_bind, eventQuery,
    updateScoreFromEvent, updatePlayerStats, tx_exec, tx_ret, connection_query.
  destruct (decide (jenis eventData = GOL)) as [Hg|Hg];
    [|destruct (decide (jenis eventData = BUNUH_DIRI)) as [Hb|Hb]];
    destruct (decide (jenis eventData ∈ [GOL; BUNUH_DIRI])) as [Hin|Hin];
    simpl; try done; exfalso; set_solver.
Qed.


(** ** What a successful [addMatchEvent] commits *)



Lemma match_events_stats_step eventData m db :
  match_events (stats_step eventData m db) = match_events db.
Proof. unfold stats_step. by case_decide. Qed.

Lemma match_events_score_step matchId eventData m db :
  match_events (score_step matchId eventData m db) = match_events db.
Proof. unfold score_step. by repeat case_decide. Qed.



Lemma match_events_committed db matchId eventData m userId :
  match_events (committed db matchId eventData m userId) =
  match_events db ++ [new_event db matchId eventData m userId].
Proof.
  unfold committed. by rewrite match_events_stats_step, match_events_score_step.
Qed.



(** ** C2: the player check *)

(** C2 fails on the code. [addMatchEvent] throws [PlayerNotEligible] on no
    call at all: on every match in progress it goes through, whoever the
    player is. (It throws [MatchNotInProgress] exactly when the match
    exists and is not in progress, and a call that throws leaves the
    database as it was.) On the sample match between teams 1 and 2, a goal
    recorded for team 1 by player 30, who is registered for the category
    under neither team, is accepted: the event enters the ledger and
    [skor_1] becomes 1. *)
Theorem player_check_never_refuses :
  (∀ matchId eventData userId db,
     (addMatchEvent matchId eventData userId db).1 ≠ Throw PlayerNotEligible) ∧
  (∀ matchId eventData userId db m,
     getMatchById db matchId = Some m → status m = sedang_main →
     ∃ detail, addMatchEvent matchId eventData userId db
               = (Ok detail, committed db matchId eventData m userId)) ∧
  (∀ matchId eventData userId db,
     (addMatchEvent matchId eventData userId db).1 = Throw MatchNotInProgress ↔
     ∃ m, getMatchById db matchId = Some m ∧ status m ≠ sedang_main) ∧
  (∀ matchId eventData userId db err,
     (addMatchEvent matchId eventData userId db).1 = Throw err →
     (addMatchEvent matchId eventData userId db).2 = db) ∧
  getMatchById live_db 1 = Some live_match ∧
  ¬ registered live_db 30 7 1 ∧ ¬ registered live_db 30 7 2 ∧
  (∃ detail, (addMatchEvent 1 stranger_goal 100 live_db).1 = Ok detail) ∧
  match_events (addMatchEvent 1 stranger_goal 100 live_db).2
  = [mkMatchEvent 1 1 7 1 30 GOL 5 100] ∧
  ∃ m', getMatchById (addMatchEvent 1 stranger_goal 100 live_db).2 1 = Some m'
        ∧ skor_1 m' = 1 ∧ skor_2 m' = 0.
Proof.
  assert (∀ t, ¬ registered live_db 30 7 t ∨ t = 3) as Hreg.
  { intros t. destruct (decide (t = 3)) as [->|Ht]; [by right|left].
    intros (pe & Hin & Hp & Hk & Hteam). vm_compute in Hin.
    repeat (apply elem_of_cons in Hin as [->|Hin]; [simpl in *; lia|]).
    by apply not_elem_of_nil in Hin. }
  split_and!.
  - intros matchId eventData userId db. rewrite addMatchEvent_unfold.
    destruct (getMatchById db matchId) as [m|]; [|done].
    by case_decide.
  - intros matchId eventData userId db m Hm Hs.
    rewrite addMatchEvent_unfold, Hm, decide_False by (intros Hne; by apply Hne).
    by eexists.
  - intros matchId eventData userId db. rewrite addMatchEvent_unfold. split.
    + destruct (getMatchById db matchId) as [m|]; [|done].
      case_decide as Hs; [by exists m|done].
    + intros (m & -> & Hs). by rewrite decide_True.
  - intros matchId eventData userId db err. rewrite addMatchEvent_unfold.
    destruct (getMatchById db matchId) as [m|]; [|done]. by case_decide.
  - reflexivity.
  - by destruct (Hreg 1).
  - by destruct (Hreg 2).
  - eexists. vm_compute. reflexivity.
  - vm_compute. reflexivity.
  - eexists. split; [vm_compute; reflexivity|]. split; reflexivity.
Qed.

(** ** C4: the goal counter *)

(** C4 fails on the code. Player 40 holds no goal counter for category 7,
    the category of the sample match; a goal recorded for team 1 by that
    player is accepted all the same and makes the score 1-0, and no goal
    counter changes. And a goal recorded for team 3, which does not play in
    the match, raises [skor_2], the score of team 2. *)
Theorem goal_without_counter :
  career_goals guest_db 40 7 = [] ∧
  (∃ detail, (addMatchEvent 1 guest_goal 100 guest_db).1 = Ok detail) ∧
  (∃ m', getMatchById (addMatchEvent 1 guest_goal 100 guest_db).2 1 = Some m'
         ∧ skor_1 m' = 1 ∧ skor_2 m' = 0) ∧
  pemain_event (addMatchEvent 1 guest_goal 100 guest_db).2 = pemain_event guest_db ∧
  (∃ detail, (addMatchEvent 1 outsider_goal 100 live_db).1 = Ok detail) ∧
  ∃ m', getMatchById (addMatchEvent 1 outsider_goal 100 live_db).2 1 = Some m'
        ∧ team_1 m' = Some 1 ∧ team_2 m' = Some 2
        ∧ skor_1 m' = 0 ∧ skor_2 m' = 1.
Proof.
  split_and!.
  - reflexivity.
  - eexists. vm_compute. reflexivity.
  - eexists. split; [vm_compute; reflexivity|]. split; reflexivity.
  - vm_compute. reflexivity.
  - eexists. vm_compute. reflexivity.
  - eexists. split; [vm_compute; reflexivity|]. split_and!; reflexivity.
Qed.

(** ** C1: the scores against the ledger *)




(** C1 fails on the code. On the sample match (team 1 against team 2, 0-0,
    empty ledger) a [GOL] event naming team 3, by player 10 of team 1, is
    accepted; [skor_2] becomes 1 although no event of the ledger credits
    team 2. *)
Theorem score_diverges_from_ledger :
  (∃ detail, (addMatchEvent 1 outsider_goal 100 live_db).1 = Ok detail) ∧
  ∃ m', getMatchById (addMatchEvent 1 outsider_goal 100 live_db).2 1 = Some m'
        ∧ skor_2 m' = 1
        ∧ events_crediting (addMatchEvent 1 outsider_goal 100 live_db).2 1 m' (team_2 m')
          = 0%nat.
Proof.
  split.
  - eexists. vm_compute. reflexivity.
  - eexists. split; [vm_compute; reflexivity|]. split; reflexivity.
Qed.

(** ** C3: finished matches *)

Lemma updateMatch_unfold id updateData userId db :
  updateMatch id updateData userId db =
  match getMatchById db id with
  | None => (Ok None, db)
  | Some currentMatch =>
    if decide (status currentMatch = selesai ∧ u_status updateData ≠ Some selesai)
    then (Throw ImmutableState, db)
    else if decide (length (updateFields updateData) = 0%nat)
    then (Throw NoValidFields, db)
    else (Ok (Some currentMatch), update_match id (apply_update updateData userId) db)
  end.
Proof.
  unfold updateMatch, transaction.
  destruct (getMatchById db id) as [m|] eqn:Hm; [|done].
  by repeat case_decide.
Qed.

Lemma updateScore_unfold id skor1 skor2 userId db :
  updateScore id skor1 skor2 userId db =
  match getMatchById db id with
  | None => (Ok None, db)
  | Some match_ => (Ok (Some match_), update_match id (set_score skor1 skor2 userId) db)
  end.
Proof.
  unfold updateScore, transaction.
  by destruct (getMatchById db id) as [m|] eqn:Hm.
Qed.

Lemma getMatchById_update_same db id f m :
  (∀ r, m_id (f r) = m_id r) →
  getMatchById db id = Some m →
  getMatchById (update_match id f db) id = Some (f m).
Proof.
  intros Hf Hm. rewrite getMatchById_update_match, Hm by done. simpl.
  apply getMatchById_Some in Hm as [_ Hid]. by rewrite decide_True.
Qed.

(** [updateScore] never looks at the status: it overwrites the scores of
    every match that exists. *)
Lemma updateScore_any_status id skor1 skor2 userId db m :
  getMatchById db id = Some m →
  ∃ r, updateScore id skor1 skor2 userId db =
         (Ok r, update_match id (set_score skor1 skor2 userId) db)
       ∧ getMatchById (update_match id (set_score skor1 skor2 userId) db) id =
         Some (set_score skor1 skor2 userId m).
Proof.
  intros Hm. exists (Some m). rewrite updateScore_unfold, Hm. split; [done|].
  by apply getMatchById_update_same.
Qed.

(** C3 fails on the code. [updateScore] does not fail on a finished match:
    on the sample match, finished 2-1, the override to 0-9 goes through and
    the row, still [selesai], reads 0-9. So it is for every match that
    exists, whatever its status. *)
Theorem finished_score_overwritten :
  getMatchById finished_db 1 = Some finished_match ∧
  status finished_match = selesai ∧
  (∃ r, (updateScore 1 0 9 100 finished_db).1 = Ok r) ∧
  (∃ m', getMatchById (updateScore 1 0 9 100 finished_db).2 1 = Some m'
         ∧ status m' = selesai ∧ skor_1 m' = 0 ∧ skor_2 m' = 9) ∧
  (∀ db id skor1 skor2 userId m,
     getMatchById db id = Some m →
     ∃ r m', (updateScore id skor1 skor2 userId db).1 = Ok r
             ∧ getMatchById (updateScore id skor1 skor2 userId db).2 id = Some m'
             ∧ skor_1 m' = skor1 ∧ skor_2 m' = skor2 ∧ status m' = status m).
Proof.
  split_and!.
  - reflexivity.
  - reflexivity.
  - eexists. vm_compute. reflexivity.
  - eexists. split; [vm_compute; reflexivity|]. split_and!; reflexivity.
  - intros db id skor1 skor2 userId m Hm.
    destruct (updateScore_any_status id skor1 skor2 userId db m Hm) as (r & Heq & Hget).
    exists r, (set_score skor1 skor2 userId m). rewrite Heq. by split_and!.
Qed.

(** ** C10: deleting a match *)

Lemma deleteMatch_unfold id userId db :
  deleteMatch id userId db =
  match getMatchById db id with
  | None => (Ok false, db)
  | Some match_ =>
    if decide (status match_ = sedang_main) then (Throw DeleteInProgress, db)
    else
      (Ok (bool_decide (0 < length (filter (λ m, m_id m = id) (matches db)))%nat),
       set_matches (filter (λ m, m_id m ≠ id))
         (set_match_staff_lineup (filter (λ msl, msl_id_match msl ≠ id))
            (set_match_lineup (filter (λ ml, ml_id_match ml ≠ id))
               (set_match_events (filter (λ me, id_match me ≠ id)) db))))
  end.
Proof.
  unfold deleteMatch, transaction.
  destruct (getMatchById db id) as [m|]; [|done].
  by case_decide.
Qed.

(** C10. [deleteMatch] on a match in progress ([sedang_main]) throws and
    changes nothing. On an existing match in any other status, [selesai]
    included, it returns [true] and commits a database from which the match
    row and every event, lineup and staff-lineup row of the match are gone,
    while the rows of other matches are all kept. *)
Theorem deleteMatch_removes_match_and_ledger id userId db m :
  getMatchById db id = Some m →
  (status m = sedang_main →
     deleteMatch id userId db = (Throw DeleteInProgress, db)) ∧
  (status m ≠ sedang_main →
     (deleteMatch id userId db).1 = Ok true
     ∧ getMatchById (deleteMatch id userId db).2 id = None
     ∧ matches (deleteMatch id userId db).2 = filter (λ r, m_id r ≠ id) (matches db)
     ∧ match_events (deleteMatch id userId db).2
       = filter (λ me, id_match me ≠ id) (match_events db)
     ∧ match_lineup (deleteMatch id userId db).2
       = filter (λ ml, ml_id_match ml ≠ id) (match_lineup db)
     ∧ match_staff_lineup (deleteMatch id userId db).2
       = filter (λ msl, msl_id_match msl ≠ id) (match_staff_lineup db)
     ∧ (∀ me, me ∈ match_events (deleteMatch id userId db).2 → id_match me ≠ id)
     ∧ (∀ ml, ml ∈ match_lineup (deleteMatch id userId db).2 → ml_id_match ml ≠ id)
     ∧ (∀ msl, msl ∈ match_staff_lineup (deleteMatch id userId db).2 →
               msl_id_match msl ≠ id)) ∧
  (status m = selesai →
     (deleteMatch id userId db).1 = Ok true
     ∧ getMatchById (deleteMatch id userId db).2 id = None
     ∧ filter (λ me, id_match me = id) (match_events (deleteMatch id userId db).2) = []).
Proof.
  intros Hm.
  assert (status m ≠ sedang_main →
     (deleteMatch id userId db).1 = Ok true
     ∧ getMatchById (deleteMatch id userId db).2 id = None
     ∧ matches (deleteMatch id userId db).2 = filter (λ r, m_id r ≠ id) (matches db)
     ∧ match_events (deleteMatch id userId db).2
       = filter (λ me, id_match me ≠ id) (match_events db)
     ∧ match_lineup (deleteMatch id userId db).2
       = filter (λ ml, ml_id_match ml ≠ id) (match_lineup db)
     ∧ match_staff_lineup (deleteMatch id userId db).2
       = filter (λ msl, msl_id_match msl ≠ id) (match_staff_lineup db)
     ∧ (∀ me, me ∈ match_events (deleteMatch id userId db).2 → id_match me ≠ id)
     ∧ (∀ ml, ml ∈ match_lineup (deleteMatch id userId db).2 → ml_id_match ml ≠ id)
     ∧ (∀ msl, msl ∈ match_staff_lineup (deleteMatch id userId db).2 →
               msl_id_match msl ≠ id)) as Hdel.
  { intros Hs. rewrite deleteMatch_unfold, Hm, decide_False by done.
    simpl. split_and!; try done.
    - f_equal. apply bool_decide_eq_true.
      unfold getMatchById in Hm. destruct (filter _ (matches db)); [done|simpl; lia].
    - apply getMatchById_None. simpl.
      intros r Hr. by apply list_elem_of_filter in Hr as [? _].
    - intros me Hme. by apply list_elem_of_filter in Hme as [? _].
    - intros ml Hml. by apply list_elem_of_filter in Hml as [? _].
    - intros msl Hmsl. by apply list_elem_of_filter in Hmsl as [? _]. }
  split_and!.
  - intros Hs. rewrite deleteMatch_unfold, Hm. by rewrite decide_True.
  - exact Hdel.
  - intros Hs.
    destruct Hdel as (Hok & Hgone & _ & _ & _ & _ & Hev & _).
    { rewrite Hs. done. }
    split_and!; try done.
    destruct (filter _ _) as [|me l] eqn:E; [done|].
    assert (me ∈ me :: l) as Hin by left. rewrite <- E in Hin.
    apply list_elem_of_filter in Hin as [Hid Hin]. by destruct (Hev me Hin).
Qed.

(** Deleting the finished sample match succeeds and empties its ledger of
    three goals. *)
Lemma deleteMatch_removes_match_and_ledger_witness :
  (deleteMatch 1 100 finished_db).1 = Ok true
  ∧ getMatchById (deleteMatch 1 100 finished_db).2 1 = None
  ∧ match_events (deleteMatch 1 100 finished_db).2 = [].
Proof.
  destruct (deleteMatch_removes_match_and_ledger 1 100 finished_db finished_match eq_refl)
    as (_ & Hdel & _).
  destruct Hdel as (Hok & Hgone & _ & Hev & _); [discriminate|].
  split_and!; [exact Hok | exact Hgone | ].
  rewrite Hev. reflexivity.
Defined.

(** ** C5: the generated fixtures *)

Section CollationFacts.
Context (collate : relation string) `{!RelDecision collate}.

(** What [generateGroupMatches] does, whatever the roster: the check on
    [teams.length] reads 2, the loops meet the one pair of elements of the
    resolved array, and one row is inserted that names no team. *)
Lemma generateGroupMatches_unfold options userId db :
  generateGroupMatches collate options userId db =
  (Ok [nameless_fixture db options],
   set_matches (λ rows, rows ++ [nameless_row db options userId]) db).
Proof. reflexivity. Qed.

End CollationFacts.

(** C5 fails on the code. [generateGroupMatches] neither throws
    [InsufficientTeams] nor pairs the teams of the roster: on every call
    (with a day and a time of day that [new Date] can read) it inserts
    exactly one match, whose two teams are NULL, and returns one fixture
    without team names. For group A of the sample, a roster of four
    teams, it creates that one fixture and not six; for group B, whose
    roster is empty, it creates one as well. *)
Theorem generateGroupMatches_one_nameless_fixture :
  (∀ (collate : relation string) `{!RelDecision collate} options userId db,
     generateGroupMatches collate options userId db =
     (Ok [nameless_fixture db options],
      set_matches (λ rows, rows ++ [nameless_row db options userId]) db)) ∧
  gt_nama_club <$> teamsQuery String.le group_db 7 "A"
  = ["Banteng"; "Elang"; "Garuda"; "Rajawali"] ∧
  round_robin_size 4 = 6%nat ∧
  generateGroupMatches String.le group_options 100 group_db
  = (Ok [mkFixture 1 None None 86446800 "A"],
     set_matches (λ _, [mkMatch 1 7 None None (Some 86446800) (Some "A")
                          belum_main 0 0 100 None]) group_db) ∧
  teamsQuery String.le group_db 7 "B" = [] ∧
  generateGroupMatches String.le (mkGroupOptions 7 "B" 86400000 None None) 100 group_db
  = (Ok [mkFixture 1 None None 86446800 "B"],
     set_matches (λ _, [mkMatch 1 7 None None (Some 86446800) (Some "B")
                          belum_main 0 0 100 None]) group_db).
Proof.
  split_and!.
  - intros collate Hdec options userId db. reflexivity.
  - vm_compute. reflexivity.
  - reflexivity.
  - vm_compute. reflexivity.
  - vm_compute. reflexivity.
  - vm_compute. reflexivity.
Qed.

(** ** C6 and C7: bracket seeding *)

(** What [generateBracketMatches] does, whatever the category: [category]
    is the array of rows, its [tipe_final] is [undefined], and the format
    check throws. *)
Lemma generateBracketMatches_unfold (collate : relation string) `{!RelDecision collate}
    id_kategori type userId db :
  generateBracketMatches collate id_kategori type userId db = (Throw UnsupportedFormat, db).
Proof. reflexivity. Qed.

(** Past the format check the call would not get far either: what the
    standings query resolves to has two elements, so at most two elements
    qualify. *)
Lemma qualifiedTeams_resolved (rows : list Standing) :
  qualifiedTeams [rows_array rows; fields_array] = [rows_array rows; fields_array].
Proof. reflexivity. Qed.

(** C6 fails on the code. No call of [generateBracketMatches] ranks a team
    or creates a semifinal: every call throws [UnsupportedFormat]. On the
    example, where category 7 is set up for a final four and the standings
    hold A (9 points, +5) and C in group X and B (9 points, +2) and D in
    group Y, the call throws and leaves [matches] and [brackets] empty. *)
Theorem bracket_is_never_seeded :
  (∀ (collate : relation string) `{!RelDecision collate} id_kategori type userId db r,
     (generateBracketMatches collate id_kategori type userId db).1 ≠ Ok r) ∧
  filter (λ c, ec_id c = 7) (event_categories bracket_db) = [mkEventCategory 7 "final_four"] ∧
  (λ s, (s_nama_club s, s_grup s, s_point s, s_selisih s))
    <$> standingsQuery String.le bracket_db 7
  = [("A", "X", 9, 5); ("C", "X", 6, 1); ("E", "X", 0, -7);
     ("B", "Y", 9, 2); ("D", "Y", 3, -1)] ∧
  generateBracketMatches String.le 7 "final_four" 100 bracket_db
  = (Throw UnsupportedFormat, bracket_db) ∧
  matches bracket_db = [] ∧ brackets bracket_db = [].
Proof.
  split_and!; try reflexivity.
  intros collate Hdec id_kategori type userId db r.
  by rewrite generateBracketMatches_unfold.
Qed.

(** C7 fails on the code. Every call of [generateBracketMatches] throws
    [UnsupportedFormat] and writes nothing, so [InsufficientQualifiers] is
    never thrown: on the group sample, whose category 7 is set up for a
    final four and has no standings, so that no team qualifies, the call
    throws [UnsupportedFormat]. So does a call for a category that does
    not exist. *)
Theorem bracket_failure_is_always_the_format :
  (∀ (collate : relation string) `{!RelDecision collate} id_kategori type userId db,
     generateBracketMatches collate id_kategori type userId db
     = (Throw UnsupportedFormat, db)) ∧
  filter (λ c, ec_id c = 7) (event_categories group_db) = [mkEventCategory 7 "final_four"] ∧
  standingsQuery String.le group_db 7 = [] ∧
  generateBracketMatches String.le 7 "final_four" 100 group_db
  = (Throw UnsupportedFormat, group_db) ∧
  UnsupportedFormat ≠ InsufficientQualifiers ∧
  filter (λ c, ec_id c = 99) (event_categories group_db) = [] ∧
  generateBracketMatches String.le 99 "final_four" 100 group_db
  = (Throw UnsupportedFormat, group_db).
Proof.
  split_and!; try reflexivity. done.
Qed.

(** ** C8: the join cooldown *)

Lemma on_message_join now msg socket :
  is_join msg → on_message now msg socket = joinWithCooldown now (room_of msg) 2000 socket.
Proof. by destruct msg. Qed.

(** C8, as amended. A request to join a room that arrives less than 2000 ms
    after the socket's last accepted request to join that room is a no-op:
    the socket, its rooms and its cooldown table stay exactly as they were.
    A request that is not refused puts the socket in the room and becomes the
    last accepted request; leaving a room does not touch the cooldown table.
    So when a request at [t1] is accepted and a second one follows within the
    window, the socket is in the room once, and if it left the room in
    between it stays out. *)
Theorem join_within_cooldown_is_noop socket msg t1 t2 :
  is_join msg →
  (∀ lastJoin, last_accepted_join socket (room_of msg) = Some lastJoin →
     t2 - lastJoin < 2000 → on_message t2 msg socket = socket) ∧
  (2000 ≤ t1 - default 0 (last_accepted_join socket (room_of msg)) →
     room_of msg ∈ rooms (on_message t1 msg socket)
     ∧ last_accepted_join (on_message t1 msg socket) (room_of msg) = Some t1) ∧
  (∀ room, last_accepted_join (leave room socket) (room_of msg)
           = last_accepted_join socket (room_of msg)) ∧
  (2000 ≤ t1 - default 0 (last_accepted_join socket (room_of msg)) → t2 - t1 < 2000 →
     on_message t2 msg (on_message t1 msg socket) = on_message t1 msg socket
     ∧ room_of msg ∈ rooms (on_message t2 msg (on_message t1 msg socket))
     ∧ on_message t2 msg (leave (room_of msg) (on_message t1 msg socket))
       = leave (room_of msg) (on_message t1 msg socket)
     ∧ room_of msg ∉ rooms (on_message t2 msg
                              (leave (room_of msg) (on_message t1 msg socket)))).
Proof.
  intros Hjoin. rewrite !on_message_join by done.
  set (room := room_of msg).
  assert (∀ s lastJoin t, last_accepted_join s room = Some lastJoin →
            t - lastJoin < 2000 → joinWithCooldown t room 2000 s = s) as Hnoop.
  { intros s lastJoin t Hlast Ht. unfold joinWithCooldown.
    unfold last_accepted_join in Hlast. rewrite Hlast. simpl.
    by rewrite decide_True. }
  assert (2000 ≤ t1 - default 0 (last_accepted_join socket room) →
          room ∈ rooms (joinWithCooldown t1 room 2000 socket)
          ∧ last_accepted_join (joinWithCooldown t1 room 2000 socket) room = Some t1)
    as Haccept.
  { intros Ht1. unfold joinWithCooldown, last_accepted_join in *.
    rewrite decide_False by lia. simpl. split; [set_solver|].
    apply lookup_insert_eq. }
  split_and!.
  - intros lastJoin. apply Hnoop.
  - exact Haccept.
  - done.
  - intros Ht1 Ht2. destruct (Haccept Ht1) as [Hin Hlast].
    rewrite (Hnoop _ t1 t2 Hlast Ht2).
    rewrite (Hnoop (leave room _) t1 t2 Hlast Ht2).
    split_and!; try done. unfold leave. simpl.
    intros [_ Hn]%elem_of_difference. apply Hn. by apply elem_of_singleton.
Qed.

(** A fresh socket asks to join the room of match 5 at 10000 ms and again at
    11500 ms: the second request changes nothing, also when the socket left
    the room at 11000 ms. *)
Lemma join_within_cooldown_is_noop_witness :
  on_message 11500 (join_match "5") (on_message 10000 (join_match "5") (connected "s1"))
  = on_message 10000 (join_match "5") (connected "s1")
  ∧ match_room "5" ∉ rooms (on_messages churn (connected "s1")).
Proof.
  destruct (join_within_cooldown_is_noop (connected "s1") (join_match "5") 10000 11500 I)
    as (_ & _ & _ & Htwice).
  destruct Htwice as (Hsame & _ & Hleft & Hout); [vm_compute; discriminate|reflexivity|].
  split; [exact Hsame|exact Hout].
Defined.

(** C8, as stated, fails. After joining at 10000 ms and leaving at 11000 ms,
    the request at 11500 ms is refused; the next request, at 12500 ms, comes
    1000 ms after the previous request and is nevertheless accepted: the
    socket, which was out of the room, is in it again. *)
Lemma join_cooldown_counterexample :
  12500 - 11500 < 2000
  ∧ (match_room "5" ∉ rooms (on_messages churn (connected "s1")))
  ∧ match_room "5" ∈ rooms (on_message 12500 (join_match "5")
                              (on_messages churn (connected "s1")))
  ∧ ¬ (∀ socket msg t_prev now,
         is_join msg → now - t_prev < 2000 →
         on_message now msg (on_message t_prev msg socket)
         = on_message t_prev msg socket).
Proof.
  assert (match_room "5" ∉ rooms (on_messages churn (connected "s1"))) as Hout.
  { vm_compute. intros Hin. discriminate Hin. }
  assert (match_room "5" ∈ rooms (on_message 12500 (join_match "5")
                                     (on_messages churn (connected "s1")))) as Hin.
  { unfold on_message, joinWithCooldown.
    rewrite decide_False by (vm_compute; discriminate). simpl. set_solver. }
  split_and!; [lia|done|done|].
  intros H.
  specialize (H (on_messages [(10000, join_match "5"); (11000, leave_match "5")]
                   (connected "s1")) (join_match "5") 11500 12500 I eq_refl).
  change (on_message 11500 (join_match "5")
            (on_messages [(10000, join_match "5"); (11000, leave_match "5")]
               (connected "s1")))
    with (on_messages churn (connected "s1")) in H.
  rewrite H in Hin. done.
Qed.

(** ** C9: the admission quota *)

Lemma handshake_rejected id clientId now srv msg :
  (rateLimit clientId now (connections srv)).1 = next_error msg →
  handshake id clientId now srv = (next_error msg, srv).
Proof.
  unfold handshake, rateLimit. destruct srv as [conns socks]. simpl.
  destruct (conns !! clientId) as [client|]; [|done].
  repeat case_decide; try done. by intros [= ->].
Qed.

Lemma accepted_at_cons t times a rest :
  accepted_at (t :: times) (a :: rest) =
  match a with
  | next_ok => t :: accepted_at times rest
  | next_error _ => accepted_at times rest
  end.
Proof. by destruct a. Qed.

Lemma handshakes_cons clientId t times conns :
  handshakes clientId (t :: times) conns =
  ((rateLimit clientId t conns).1
     :: (handshakes clientId times (rateLimit clientId t conns).2).1,
   (handshakes clientId times (rateLimit clientId t conns).2).2).
Proof.
  cbn [handshakes]. destruct (rateLimit clientId t conns) as [a conns'].
  cbn [fst snd]. by destruct (handshakes clientId times conns').
Qed.

(** Handshakes that all fall inside the current window are accepted until
    the count reaches 50 and refused from then on. *)
Lemma handshakes_within_window clientId times conns k t0 :
  conns !! clientId = Some (mkClient k t0) →
  1 ≤ k ≤ 50 →
  Forall (λ t, t - t0 ≤ 60000) times →
  Z.of_nat (length (accepted_at times (handshakes clientId times conns).1))
  = Z.min (Z.of_nat (length times)) (50 - k)
  ∧ (handshakes clientId times conns).2 !! clientId
    = Some (mkClient (Z.min (k + Z.of_nat (length times)) 50) t0).
Proof.
  intros Hc Hk Hall. revert conns k Hc Hk.
  induction Hall as [|t times Ht Hall IH]; intros conns k Hc Hk.
  - cbn [handshakes fst snd length]. split; [unfold accepted_at; simpl; lia|].
    rewrite Hc. do 2 f_equal. lia.
  - rewrite handshakes_cons. cbn [fst snd]. rewrite accepted_at_cons.
    destruct (decide (50 ≤ k)) as [Hfull|Hroom].
    + assert (rateLimit clientId t conns = (next_error "Rate limit exceeded", conns))
        as -> by (unfold rateLimit; rewrite Hc; simpl;
                  rewrite decide_False by lia; by rewrite decide_True).
      cbn [fst snd]. destruct (IH conns k Hc Hk) as [Hn Hlast].
      split; [lia|]. rewrite Hlast. do 2 f_equal. cbn [length]. lia.
    + assert (rateLimit clientId t conns
              = (next_ok, <[clientId := mkClient (k + 1) t0]> conns))
        as -> by (unfold rateLimit; rewrite Hc; simpl; by rewrite !decide_False by lia).
      cbn [fst snd].
      destruct (IH (<[clientId := mkClient (k + 1) t0]> conns) (k + 1)) as [Hn Hlast];
        [apply lookup_insert_eq|lia|].
      cbn [length]. split; [lia|]. rewrite Hlast. do 2 f_equal. lia.
Qed.

(** C9, as amended. Admission is counted per address in a fixed window that
    opens at the handshake recorded in [lastReset]. Inside the window (at
    most 60000 ms after it opened) a handshake is refused once 50 have been
    counted, and the refusal changes neither the quota table nor the
    connected sockets, so no existing connection is closed; with fewer than
    50 counted it is accepted and counted. A handshake that arrives more than
    60000 ms after the window opened is accepted and opens a new window with
    the count 1. Within one window, opened by the first handshake of an
    address, exactly the first 50 handshakes are accepted. *)
Theorem admission_fixed_window id clientId now srv client :
  connections srv !! clientId = Some client →
  (now - lastReset client ≤ 60000 → 50 ≤ count client →
     handshake id clientId now srv = (next_error "Rate limit exceeded", srv)) ∧
  (now - lastReset client ≤ 60000 → count client < 50 →
     ∃ srv', handshake id clientId now srv = (next_ok, srv')
             ∧ connections srv' !! clientId
               = Some (mkClient (count client + 1) (lastReset client))
             ∧ sockets srv' = <[id := connected id]> (sockets srv)) ∧
  (60000 < now - lastReset client →
     ∃ srv', handshake id clientId now srv = (next_ok, srv')
             ∧ connections srv' !! clientId = Some (mkClient 1 now)
             ∧ sockets srv' = <[id := connected id]> (sockets srv)) ∧
  (∀ conns t0 times,
     conns !! clientId = None →
     Forall (λ t, t - t0 ≤ 60000) times →
     Z.of_nat (length (accepted_at (t0 :: times)
                         (handshakes clientId (t0 :: times) conns).1))
     = Z.min (1 + Z.of_nat (length times)) 50).
Proof.
  intros Hc. split_and!.
  - intros Hwin Hfull. apply handshake_rejected.
    unfold rateLimit. rewrite Hc. rewrite decide_False by lia. by rewrite decide_True.
  - intros Hwin Hroom. unfold handshake, rateLimit. rewrite Hc.
    rewrite !decide_False by lia. eexists. split_and!; try done.
    simpl. apply lookup_insert_eq.
  - intros Hover. unfold handshake, rateLimit. rewrite Hc.
    rewrite decide_True by lia. eexists. split_and!; try done.
    simpl. apply lookup_insert_eq.
  - intros conns t0 times Hnone Hall. rewrite handshakes_cons. cbn [fst snd].
    assert (rateLimit clientId t0 conns = (next_ok, <[clientId := mkClient 1 t0]> conns))
      as -> by (unfold rateLimit; by rewrite Hnone).
    cbn [fst snd]. rewrite accepted_at_cons. cbn [length].
    destruct (handshakes_within_window clientId times
                (<[clientId := mkClient 1 t0]> conns) 1 t0) as [Hn _];
      [apply lookup_insert_eq|lia|done|].
    lia.
Qed.

(** An address that has used its 50 handshakes is refused 30 s into the
    window, and the server is left as it was. *)
Lemma admission_fixed_window_witness :
  handshake "s9" "10.0.0.1" 31000
    (mkServer {["10.0.0.1" := mkClient 50 1000]} {["s1" := connected "s1"]})
  = (next_error "Rate limit exceeded",
     mkServer {["10.0.0.1" := mkClient 50 1000]} {["s1" := connected "s1"]}).
Proof.
  destruct (admission_fixed_window "s9" "10.0.0.1" 31000
              (mkServer {["10.0.0.1" := mkClient 50 1000]} {["s1" := connected "s1"]})
              (mkClient 50 1000))
    as (Hrefuse & _).
  - reflexivity.
  - apply Hrefuse; simpl; lia.
Defined.

(** C9, as stated, fails: the quota does not slide. Of the handshakes of
    [burst], all 52 are accepted, and 51 of them fall between 60000 ms and
    61001 ms, far more closely than a minute apart and more than the 50 a
    sliding minute would allow. *)
Lemma admission_not_sliding_counterexample :
  length (accepted_at burst (handshakes "10.0.0.1" burst ∅).1) = 52%nat
  ∧ length (filter (λ t, 60000 ≤ t ≤ 61001)
              (accepted_at burst (handshakes "10.0.0.1" burst ∅).1)) = 51%nat
  ∧ 61001 - 60000 < 60000.
Proof. split_and!; [vm_compute; reflexivity..|lia]. Qed.

(** * Part VI: further properties of the source *)

(** ** More facts about tables *)

(** The AUTO_INCREMENT value is above every id of the table. *)
Lemma auto_increment_fresh {A} (id : A → Z) (rows : list A) r :
  r ∈ rows → id r < auto_increment id rows.
Proof.
  unfold auto_increment. induction rows as [|r' rows IH]; [by intros ?%not_elem_of_nil|].
  intros [->|Hin]%elem_of_cons; simpl; [lia|]. specialize (IH Hin). lia.
Qed.

Lemma length_filter_none {A} (P : A → Prop) `{∀ x, Decision (P x)} (l : list A) :
  (∀ x, x ∈ l → ¬ P x) → length (filter P l) = 0%nat.
Proof.
  intros Hl. induction l as [|x l IH]; [done|].
  rewrite filter_cons, decide_False by (apply Hl; left).
  apply IH. intros y Hy. apply Hl. by right.
Qed.


(** ** Creating a match *)

Lemma createMatch_unfold matchData userId db :
  createMatch matchData userId db = (Throw SchedulingConflict, db).
Proof. reflexivity. Qed.

(** X1. [createMatch] creates no match. The two checks read the [length]
    of what [connection.query] resolved to, which is 2 whatever the rows
    are: the first check never throws [TeamsNotRegistered] (400), the second
    throws [SchedulingConflict] (400 ['Teams have scheduling conflict at
    this time']) on every request, also when the table of matches is empty,
    and the database is left as it was. *)
Theorem createMatch_always_conflicts matchData userId db :
  createMatch matchData userId db = (Throw SchedulingConflict, db)
  ∧ (createMatch matchData userId db).1 ≠ Throw TeamsNotRegistered
  ∧ (∀ r, (createMatch matchData userId db).1 ≠ Ok r)
  ∧ matches (createMatch matchData userId db).2 = matches db
  ∧ SchedulingConflict = mkAppError "Teams have scheduling conflict at this time" 400.
Proof. by rewrite createMatch_unfold. Qed.

(** ** Match statistics *)

Lemma decide_and_l (P Q : Prop) `{Decision P, Decision Q} {A} (x y : A) :
  P → (if decide (P ∧ Q) then x else y) = if decide Q then x else y.
Proof. intros HP. repeat case_decide; tauto. Qed.

Lemma stat_of_snoc rows r team kind :
  stat_of (rows ++ [r]) team kind =
  if decide (st_id_team r = team ∧ st_jenis r = kind) then st_count r
  else stat_of rows team kind.
Proof.
  unfold stat_of. rewrite filter_app, filter_cons, filter_nil.
  case_decide; [by rewrite last_snoc|by rewrite app_nil_r].
Qed.

Lemma stat_of_none rows team kind :
  filter (λ r, st_id_team r = team) rows = [] → stat_of rows team kind = 0.
Proof.
  intros Hnone. unfold stat_of.
  rewrite <- (list_filter_filter_l (λ r, st_id_team r = team ∧ st_jenis r = kind)
                (λ r, st_id_team r = team)) by tauto.
  by rewrite Hnone.
Qed.

Lemma lookup_format_stat teamStats stat team :
  format_stat teamStats stat !! team =
  if decide (st_id_team stat = team) then
    let s := default (mkTeamStats (st_team_name stat) 0 0 0 0) (teamStats !! team) in
    Some (if decide (st_jenis stat = GOL) then set_goals (st_count stat) s
          else if decide (st_jenis stat = KUNING) then set_yellow_cards (st_count stat) s
          else if decide (st_jenis stat = MERAH) then set_red_cards (st_count stat) s
          else if decide (st_jenis stat = BUNUH_DIRI) then set_own_goals (st_count stat) s
          else s)
  else teamStats !! team.
Proof.
  unfold format_stat.
  set (m := match teamStats !! st_id_team stat with
            | Some _ => teamStats
            | None => <[st_id_team stat := mkTeamStats (st_team_name stat) 0 0 0 0]> teamStats
            end).
  assert (m !! team =
          if decide (st_id_team stat = team)
          then Some (default (mkTeamStats (st_team_name stat) 0 0 0 0) (teamStats !! team))
          else teamStats !! team) as Hm.
  { unfold m. case_decide as Heq.
    - subst team. destruct (teamStats !! st_id_team stat) as [s|] eqn:Hs; simpl.
      + done.
      + by rewrite lookup_insert_eq.
    - destruct (teamStats !! st_id_team stat); [done|]. by rewrite lookup_insert_ne. }
  destruct (decide (st_id_team stat = team)) as [Heq|Hne].
  - subst team. cbv zeta. repeat case_decide; rewrite ?lookup_alter_eq, Hm; done.
  - repeat case_decide; rewrite ?lookup_alter_ne by done; exact Hm.
Qed.

(** What [stats.forEach] leaves in [teamStats]: an entry for every team
    that has a row, named as in the team's first row, each field holding the
    count of the last row of its kind. *)
Lemma foldl_format_stat rows team :
  foldl format_stat ∅ rows !! team =
  match filter (λ r, st_id_team r = team) rows with
  | [] => None
  | r0 :: _ =>
      Some (mkTeamStats (st_team_name r0) (stat_of rows team GOL)
              (stat_of rows team KUNING) (stat_of rows team MERAH)
              (stat_of rows team BUNUH_DIRI))
  end.
Proof.
  induction rows as [|r rows IH] using rev_ind; [done|].
  rewrite foldl_snoc, lookup_format_stat, IH, filter_app, filter_cons, filter_nil.
  rewrite !stat_of_snoc.
  destruct (decide (st_id_team r = team)) as [Heq|Hne].
  - rewrite !(decide_and_l (st_id_team r = team)) by done. cbv zeta.
    destruct (filter (λ r, st_id_team r = team) rows) as [|r0 l] eqn:Hrows; simpl.
    + rewrite !stat_of_none by done. f_equal. unfold GOL, KUNING, MERAH, BUNUH_DIRI.
      repeat case_decide; try congruence; done.
    + f_equal. unfold GOL, KUNING, MERAH, BUNUH_DIRI.
      repeat case_decide; try congruence; done.
  - rewrite app_nil_r. destruct (filter _ rows); [done|].
    do 2 f_equal; rewrite decide_False; tauto.
Qed.

Lemma filter_key_unique {A K} `{EqDecision K} (f : A → K) (l : list A) x :
  NoDup (f <$> l) → x ∈ l → filter (λ y, f y = f x) l = [x].
Proof.
  induction l as [|y l IH]; [by intros _ ?%elem_of_nil|].
  rewrite fmap_cons, NoDup_cons, elem_of_cons, filter_cons. intros [Hy Hnd] [->|Hx].
  - rewrite decide_True by done. f_equal.
    destruct (filter _ l) as [|z l'] eqn:E; [done|]. exfalso. apply Hy.
    assert (z ∈ filter (λ z, f z = f y) l) as Hz by (rewrite E; left).
    apply list_elem_of_filter in Hz as [<- Hz]. by apply list_elem_of_fmap_2.
  - rewrite decide_False; [by apply IH|].
    intros Heq. apply Hy. rewrite Heq. by apply list_elem_of_fmap_2.
Qed.

Lemma filter_eq_NoDup {A} `{EqDecision A} (l : list A) x :
  NoDup l → filter (λ y, y = x) l = if decide (x ∈ l) then [x] else [].
Proof.
  intros Hnd. case_decide as Hx.
  - rewrite <- (filter_key_unique id l x); [done|by rewrite list_fmap_id|done].
  - destruct (filter _ l) as [|z l'] eqn:E; [done|]. exfalso. apply Hx.
    assert (z ∈ filter (λ y, y = x) l) as Hz by (rewrite E; left).
    by apply list_elem_of_filter in Hz as [<- Hz].
Qed.

Lemma filter_iff_in {A} (P Q : A → Prop) `{∀ x, Decision (P x)} `{∀ x, Decision (Q x)}
    (l : list A) :
  (∀ x, x ∈ l → P x ↔ Q x) → filter P l = filter Q l.
Proof.
  induction l as [|x l IH]; [done|]. intros HPQ.
  rewrite !filter_cons, IH by (intros y Hy; apply HPQ; by right).
  pose proof (HPQ x ltac:(left)). repeat case_decide; tauto.
Qed.

Lemma filter_fmap_gen {A B} (P : B → Prop) `{∀ x, Decision (P x)} (g : A → B) (l : list A) :
  filter P (g <$> l) = g <$> filter (λ x, P (g x)) l.
Proof.
  induction l as [|x l IH]; [done|].
  rewrite fmap_cons, !filter_cons, IH. by case_decide.
Qed.

Lemma elem_of_stat_keys pool id t kind n :
  (t, kind, n) ∈ stat_keys pool id ↔
  ∃ me team, me ∈ match_events pool ∧ id_match me = id ∧ me_id_team me = t
             ∧ me_jenis me = kind ∧ team ∈ teams pool ∧ t_id team = t
             ∧ nama_club team = n.
Proof.
  unfold stat_keys. rewrite list_elem_of_bind. split.
  - intros (me & Hkey & [Hid Hme]%list_elem_of_filter).
    apply list_elem_of_bind in Hkey as (team & Hkey & [Hteam Hin]%list_elem_of_filter).
    apply list_elem_of_singleton in Hkey as [= -> -> ->].
    exists me, team. by split_and!.
  - intros (me & team & Hme & Hid & Ht & Hk & Hteam & Htid & Hn).
    exists me. split; [|by apply list_elem_of_filter].
    apply list_elem_of_bind. exists team. split.
    + apply list_elem_of_singleton. by rewrite Ht, Hk, Hn.
    + apply list_elem_of_filter. by rewrite Ht.
Qed.

(** A grouping key occurs once for each event of its team and kind. *)
Lemma stat_keys_count pool id team kind :
  NoDup (t_id <$> teams pool) → team ∈ teams pool →
  Z.of_nat (length (filter (λ key, key = (t_id team, kind, nama_club team))
                      (stat_keys pool id)))
  = ledger_count pool id (t_id team) kind.
Proof.
  intros Hnd Hteam. unfold ledger_count, stat_keys. f_equal.
  induction (match_events pool) as [|me l IH]; [done|].
  rewrite !filter_cons.
  destruct (decide (id_match me = id)) as [Hid|Hid].
  - rewrite bind_cons, filter_app, length_app, IH.
    destruct (decide (me_id_team me = t_id team)) as [Ht|Ht].
    + rewrite Ht, (filter_key_unique t_id _ team) by done.
      rewrite bind_singleton, filter_cons, filter_nil.
      destruct (decide (me_jenis me = kind)) as [Hk|Hk].
      * rewrite decide_True by (by rewrite Hk). rewrite decide_True by done. done.
      * rewrite decide_False by (intros [= ?]; done).
        rewrite decide_False by tauto. done.
    + rewrite decide_False by tauto.
      rewrite (length_filter_none _ (_ ≫= _)); [done|].
      intros key (tm & Hkey & _)%list_elem_of_bind.
      apply list_elem_of_singleton in Hkey as ->. intros [= ? _ _]. done.
  - rewrite IH. rewrite decide_False by tauto. done.
Qed.

Section StatisticsFacts.
Context (collate : relation string) `{!RelDecision collate}.

Lemma statsQuery_filter pool id (P : StatRow → Prop) `{∀ r, Decision (P r)} :
  filter P (statsQuery collate pool id) ≡ₚ
  (λ k, mkStatRow k.1.1 k.1.2
          (Z.of_nat (length (filter (λ k', k' = k) (stat_keys pool id)))) k.2)
  <$> filter (λ k, P (mkStatRow k.1.1 k.1.2
                        (Z.of_nat (length (filter (λ k', k' = k) (stat_keys pool id))))
                        k.2))
        (remove_dups (stat_keys pool id)).
Proof.
  unfold statsQuery. rewrite merge_sort_Permutation. unfold stat_groups.
  by rewrite filter_fmap_gen.
Qed.

(** X4. When every team has one row in [teams], the object that
    [getMatchStatistics] returns has an entry exactly for the teams that
    exist and have at least one event in the match's ledger, and the entry
    of a team carries its name and, as [goals], [yellow_cards], [red_cards]
    and [own_goals], the number of [GOL], [KUNING], [MERAH] and
    [BUNUH_DIRI] events the ledger holds for that team in that match. *)
Theorem getMatchStatistics_counts pool id t :
  NoDup (t_id <$> teams pool) →
  getMatchStatistics collate pool id !! t =
  match filter (λ team, t_id team = t) (teams pool),
        filter (λ me, id_match me = id ∧ me_id_team me = t) (match_events pool) with
  | team :: _, _ :: _ =>
      Some (mkTeamStats (nama_club team) (ledger_count pool id t GOL)
              (ledger_count pool id t KUNING) (ledger_count pool id t MERAH)
              (ledger_count pool id t BUNUH_DIRI))
  | _, _ => None
  end.
Proof.
  intros Hnd. unfold getMatchStatistics. rewrite foldl_format_stat.
  set (keys := stat_keys pool id).
  set (count := λ k, Z.of_nat (length (filter (λ k', k' = k) keys))).
  assert (∀ r, r ∈ filter (λ r, st_id_team r = t) (statsQuery collate pool id) →
               ∃ kind n, (t, kind, n) ∈ keys ∧ st_team_name r = n) as Hrows.
  { intros r Hr. rewrite statsQuery_filter in Hr.
    apply list_elem_of_fmap in Hr as ([[t' kind] n] & -> & Hk).
    apply list_elem_of_filter in Hk as [Ht Hk]. simpl in Ht. subst t'.
    rewrite elem_of_remove_dups in Hk. by exists kind, n. }
  destruct (filter (λ team, t_id team = t) (teams pool)) as [|team ts] eqn:Hteam.
  { destruct (filter _ (statsQuery _ _ _)) as [|r0 l] eqn:E; [done|]. exfalso.
    destruct (Hrows r0 ltac:(left)) as (kind & n & Hkey & _).
    apply elem_of_stat_keys in Hkey as (me & team & _ & _ & _ & _ & Hin & Hid & _).
    assert (team ∈ filter (λ team, t_id team = t) (teams pool)) as Hf
      by (by apply list_elem_of_filter).
    rewrite Hteam in Hf. by apply elem_of_nil in Hf. }
  assert (team ∈ teams pool ∧ t_id team = t) as [Hin Hid].
  { assert (team ∈ filter (λ team, t_id team = t) (teams pool)) as Hf
      by (rewrite Hteam; left).
    by apply list_elem_of_filter in Hf as [? ?]. }
  assert (∀ kind n, (t, kind, n) ∈ keys → n = nama_club team) as Hname.
  { intros kind n (me & team' & _ & _ & _ & _ & Hin' & Hid' & <-)%elem_of_stat_keys.
    f_equal.
    assert (team' ∈ filter (λ y, t_id y = t_id team) (teams pool)) as Hf
      by (apply list_elem_of_filter; split; [congruence|done]).
    rewrite (filter_key_unique t_id _ team) in Hf by done.
    by apply list_elem_of_singleton in Hf. }
  assert (∀ kind, stat_of (statsQuery collate pool id) t kind = ledger_count pool id t kind)
    as Hstat.
  { intros kind. rewrite <- Hid, <- stat_keys_count by done. rewrite Hid. fold keys.
    unfold stat_of.
    pose proof (statsQuery_filter pool id (λ r, st_id_team r = t ∧ st_jenis r = kind))
      as Hperm. simpl in Hperm. fold keys in Hperm.
    rewrite (filter_iff_in _ (λ k, k = (t, kind, nama_club team))) in Hperm.
    2:{ intros [[t' kind'] n] Hk. rewrite elem_of_remove_dups in Hk. simpl. split.
        - intros [-> ->]. f_equal. by eapply Hname.
        - by intros [= -> -> ->]. }
    rewrite filter_eq_NoDup in Hperm by apply NoDup_remove_dups.
    case_decide as Hkey.
    - apply Permutation_singleton_r in Hperm. rewrite Hperm. done.
    - apply Permutation_nil_r in Hperm. rewrite Hperm. simpl.
      rewrite elem_of_remove_dups in Hkey.
      destruct (filter _ keys) as [|k l] eqn:E; [done|]. exfalso. apply Hkey.
      assert (k ∈ filter (λ k', k' = (t, kind, nama_club team)) keys) as Hk
        by (rewrite E; left).
      by apply list_elem_of_filter in Hk as [<- ?]. }
  rewrite !Hstat.
  destruct (filter (λ me, id_match me = id ∧ me_id_team me = t) (match_events pool))
    as [|me mes] eqn:Hev.
  - destruct (filter _ (statsQuery _ _ _)) as [|r0 l] eqn:E; [done|]. exfalso.
    destruct (Hrows r0 ltac:(left)) as (kind & n & Hkey & _).
    apply elem_of_stat_keys in Hkey as (me & _ & Hme & Hmid & Hmt & _).
    assert (me ∈ filter (λ me, id_match me = id ∧ me_id_team me = t) (match_events pool))
      as Hf by (by apply list_elem_of_filter).
    rewrite Hev in Hf. by apply elem_of_nil in Hf.
  - assert (me ∈ match_events pool ∧ id_match me = id ∧ me_id_team me = t)
      as (Hme & Hmid & Hmt).
    { assert (me ∈ filter (λ me, id_match me = id ∧ me_id_team me = t)
                     (match_events pool)) as Hf by (rewrite Hev; left).
      apply list_elem_of_filter in Hf. tauto. }
    destruct (filter _ (statsQuery _ _ _)) as [|r0 l] eqn:E.
    + exfalso.
      assert ((t, me_jenis me, nama_club team) ∈ keys) as Hkey.
      { apply elem_of_stat_keys. by exists me, team. }
      assert (mkStatRow t (me_jenis me) (count (t, me_jenis me, nama_club team))
                (nama_club team)
              ∈ filter (λ r, st_id_team r = t) (statsQuery collate pool id)) as Hr.
      { rewrite statsQuery_filter. apply list_elem_of_fmap.
        exists (t, me_jenis me, nama_club team). split; [done|].
        apply list_elem_of_filter. split; [done|]. by apply elem_of_remove_dups. }
      rewrite E in Hr. by apply elem_of_nil in Hr.
    + destruct (Hrows r0 ltac:(left)) as (kind & n & Hkey & ->).
      by rewrite (Hname kind n Hkey).
Qed.

End StatisticsFacts.

(** Two goals of team 1 and one of team 2 stand in the ledger of the
    finished sample match; team 3 does not exist there. *)
Lemma getMatchStatistics_counts_witness :
  getMatchStatistics String.le finished_db 1 !! 1 = Some (mkTeamStats "Garuda" 2 0 0 0)
  ∧ getMatchStatistics String.le finished_db 1 !! 2 = Some (mkTeamStats "Rajawali" 1 0 0 0)
  ∧ getMatchStatistics String.le finished_db 1 !! 3 = None.
Proof.
  assert (NoDup (t_id <$> teams finished_db)) as Hnd by compute_done.
  split_and!; rewrite (getMatchStatistics_counts String.le finished_db 1 _ Hnd);
    reflexivity.
Defined.

(** ** What a successful [addMatchEvent] changes *)







(** ** What the calls of the service keep *)




Section CommandFacts.
Context (collate : relation string) `{!RelDecision collate}.





(** ** The ledger *)

Lemma match_events_run_command c db :
  match_events (run_command collate c db) = match_events db
  ∨ ∃ me, match_events (run_command collate c db) = match_events db ++ [me]
          ∧ me_id me = auto_increment me_id (match_events db).
Proof.
  destruct c as [matchData userId|id updateData userId|id skor1 skor2 userId
                |matchId eventData userId|options userId|id_kategori type userId];
    unfold run_command; cbv beta iota.
  - left. by rewrite createMatch_unfold.
  - left. rewrite updateMatch_unfold.
    destruct (getMatchById db id); [|done]. by repeat case_decide.
  - left. rewrite updateScore_unfold. by destruct (getMatchById db id).
  - rewrite addMatchEvent_unfold.
    destruct (getMatchById db matchId) as [m|]; [|by left].
    case_decide; [by left|]. cbv zeta. simpl.
    right. eexists. by rewrite match_events_committed.
  - left. by rewrite generateGroupMatches_unfold.
  - left. by rewrite generateBracketMatches_unfold.
Qed.

(** X12. The ledger is append-only under the calls that write to matches,
    [deleteMatch] left aside: after any sequence of [createMatch],
    [updateMatch], [updateScore], [addMatchEvent], [generateGroupMatches]
    and [generateBracketMatches] calls every event that was in
    [match_events] is still there, unchanged and in the same place,
    followed by the events recorded since; and the events' ids stay
    pairwise different when they were. *)
Theorem ledger_is_append_only cs db :
  match_events db `prefix_of` match_events (run_commands collate cs db)
  ∧ (NoDup (me_id <$> match_events db) →
     NoDup (me_id <$> match_events (run_commands collate cs db))).
Proof.
  revert db. induction cs as [|c cs IH]; intros db; [done|].
  unfold run_commands in *. simpl.
  destruct (IH (run_command collate c db)) as [Hpre Hnd].
  destruct (match_events_run_command c db) as [Heq|(me & Heq & Hid)].
  - rewrite Heq in Hpre, Hnd. done.
  - rewrite Heq in Hpre, Hnd. split.
    + etrans; [|exact Hpre]. by exists [me].
    + intros Hold. apply Hnd. rewrite fmap_app. apply NoDup_app. split_and!.
      * done.
      * intros x (old & -> & Hin)%list_elem_of_fmap Hx.
        apply list_elem_of_singleton in Hx.
        pose proof (auto_increment_fresh me_id _ _ Hin). simpl in Hx. lia.
      * apply NoDup_singleton.
Qed.

End CommandFacts.


(** ** Updating and overriding *)



Lemma update_match_twice id (f g : Match → Match) db :
  (∀ r, m_id (f r) = m_id r) →
  update_match id g (update_match id f db) = update_match id (g ∘ f) db.
Proof.
  intros Hf. unfold update_match, set_matches. destruct db. simpl. f_equal.
  rewrite <- list_fmap_compose. apply list_fmap_ext. intros i r _. simpl.
  destruct (decide (m_id r = id)) as [Hr|Hr].
  - rewrite decide_True; [done|]. by rewrite Hf.
  - by rewrite decide_False.
Qed.

Lemma update_match_ext id (f g : Match → Match) db :
  (∀ r, f r = g r) → update_match id f db = update_match id g db.
Proof.
  intros Hfg. unfold update_match, set_matches. destruct db. simpl. f_equal.
  apply list_fmap_ext. intros i r _. simpl. case_decide; [apply Hfg|done].
Qed.



(** X9. [updateScore] is an absolute override: of two overrides in a row
    the later one decides the score, and the database is the one the later
    override alone would have committed. *)
Theorem updateScore_last_write_wins id a b c d userId userId' db :
  (updateScore id c d userId' (updateScore id a b userId db).2).2
  = (updateScore id c d userId' db).2.
Proof.
  rewrite (updateScore_unfold id a b userId db).
  destruct (getMatchById db id) as [m|] eqn:Hm; [|done]. simpl.
  rewrite !updateScore_unfold, Hm.
  rewrite (getMatchById_update_same db id _ m) by done. simpl.
  rewrite update_match_twice by done. by apply update_match_ext.
Qed.

(** ** Deleting *)

(** X10. [deleteMatch] answers [false] and writes nothing for an id that
    has no match, and a delete that went through cannot be repeated: after
    any call that did not throw, the match is gone, so the same call again
    answers [false] and leaves the database as the first call left it. *)
Theorem deleteMatch_again_is_false id userId userId' db :
  (getMatchById db id = None → deleteMatch id userId db = (Ok false, db)) ∧
  (∀ r, (deleteMatch id userId db).1 = Ok r →
        getMatchById (deleteMatch id userId db).2 id = None
        ∧ deleteMatch id userId' (deleteMatch id userId db).2
          = (Ok false, (deleteMatch id userId db).2)).
Proof.
  split.
  - intros Hm. by rewrite deleteMatch_unfold, Hm.
  - intros r Hr.
    assert (getMatchById (deleteMatch id userId db).2 id = None) as Hgone.
    { rewrite deleteMatch_unfold in Hr |- *.
      destruct (getMatchById db id) as [m|] eqn:Hm; [|done].
      case_decide; [done|]. simpl.
      apply getMatchById_None. simpl.
      intros r' Hr'. by apply list_elem_of_filter in Hr' as [? _]. }
    split; [done|]. by rewrite (deleteMatch_unfold id userId'), Hgone.
Qed.

(** X11. [deleteMatch] writes to [matches], [match_events], [match_lineup]
    and [match_staff_lineup] only. The goal counters of the players and the
    bracket entries are left as they are: the goals of a deleted match stay
    in the counters, and a bracket entry that names the deleted match keeps
    naming it although no such match exists any more. The matches with
    another id and their ledgers are untouched. *)
Theorem deleteMatch_leaves_counters_and_brackets id userId db :
  pemain_event (deleteMatch id userId db).2 = pemain_event db
  ∧ (∀ player kategori,
       career_goals (deleteMatch id userId db).2 player kategori
       = career_goals db player kategori)
  ∧ brackets (deleteMatch id userId db).2 = brackets db
  ∧ (∀ b, b ∈ brackets db → match_id b = Some id →
          (deleteMatch id userId db).1 = Ok true →
          b ∈ brackets (deleteMatch id userId db).2
          ∧ getMatchById (deleteMatch id userId db).2 id = None)
  ∧ (∀ id', id' ≠ id →
       getMatchById (deleteMatch id userId db).2 id' = getMatchById db id'
       ∧ filter (λ me, id_match me = id') (match_events (deleteMatch id userId db).2)
         = filter (λ me, id_match me = id') (match_events db)).
Proof.
  rewrite deleteMatch_unfold.
  destruct (getMatchById db id) as [m|] eqn:Hm.
  2:{ simpl. split_and!; try done. }
  case_decide as Hs; [simpl; split_and!; done|]. simpl.
  split_and!; try done.
  - intros b Hb _ _. split; [done|].
    apply getMatchById_None. simpl.
    intros r' Hr'. by apply list_elem_of_filter in Hr' as [? _].
  - intros id' Hid'. split.
    + unfold getMatchById. simpl. f_equal.
      rewrite list_filter_filter. apply list_filter_iff. intros r. split; [tauto|].
      intros Hr. split; [done|congruence].
    + rewrite list_filter_filter. apply list_filter_iff. intros me. split; [tauto|].
      intros Hme. split; [done|congruence].
Qed.

(** ** The socket server over time *)

Lemma room_of_not_general msg : room_of msg ≠ "general".
Proof. by destruct msg. Qed.

Lemma rooms_on_message_other now msg socket room :
  room ≠ room_of msg → room ∈ rooms (on_message now msg socket) ↔ room ∈ rooms socket.
Proof.
  intros Hne.
  assert (∀ r cooldownMs, room ≠ r →
            room ∈ rooms (joinWithCooldown now r cooldownMs socket) ↔ room ∈ rooms socket)
    as Hjoin.
  { intros r cooldownMs Hr. unfold joinWithCooldown. case_decide; [done|]. simpl.
    rewrite elem_of_union, elem_of_singleton. tauto. }
  assert (∀ r, room ≠ r → room ∈ rooms (leave r socket) ↔ room ∈ rooms socket) as Hleave.
  { intros r Hr. unfold leave. simpl. rewrite elem_of_difference, elem_of_singleton. tauto. }
  destruct msg; simpl in *; auto.
Qed.

Lemma socket_id_on_message now msg socket :
  socket_id (on_message now msg socket) = socket_id socket.
Proof. destruct msg; simpl; unfold joinWithCooldown, leave; by try case_decide. Qed.

Lemma connections_handshake id clientId now srv :
  connections (handshake id clientId now srv).2 = (rateLimit clientId now (connections srv)).2.
Proof.
  unfold handshake. by destruct (rateLimit _ _ _) as [[|msg] conns].
Qed.

Lemma sockets_handshake id clientId now srv :
  sockets (handshake id clientId now srv).2 = sockets srv
  ∨ sockets (handshake id clientId now srv).2 = <[id := connected id]> (sockets srv).
Proof.
  unfold handshake. destruct (rateLimit _ _ _) as [[|msg] conns]; simpl; auto.
Qed.

Lemma rateLimit_dom clientId now (conns : gmap string Client) :
  dom (rateLimit clientId now conns).2 = {[clientId]} ∪ dom conns.
Proof.
  unfold rateLimit. destruct (conns !! clientId) as [client|] eqn:Hc.
  - assert (clientId ∈ dom conns) as Hin by (apply elem_of_dom; by eexists).
    assert ({[clientId]} ∪ dom conns = dom conns) as ->.
    { apply set_eq. intros x. rewrite elem_of_union, elem_of_singleton.
      split; [intros [->|?]; done|by right]. }
    repeat case_decide; simpl; rewrite ?dom_insert_L; try done.
    all: apply set_eq; intros x; rewrite elem_of_union, elem_of_singleton;
      (split; [intros [->|?]; done|by right]).
  - simpl. by rewrite dom_insert_L.
Qed.

Lemma rateLimit_counts clientId now (conns : gmap string Client) :
  (∀ k c, conns !! k = Some c → 1 ≤ count c ≤ 50) →
  ∀ k c, (rateLimit clientId now conns).2 !! k = Some c → 1 ≤ count c ≤ 50.
Proof.
  intros Hinv k c. unfold rateLimit.
  destruct (conns !! clientId) as [client|] eqn:Hc.
  - pose proof (Hinv _ _ Hc) as Hclient.
    repeat case_decide; simpl; try apply Hinv.
    all: destruct (decide (clientId = k)) as [->|Hne];
      [rewrite lookup_insert_eq; intros [= <-]; simpl; lia
      |rewrite lookup_insert_ne by done; apply Hinv].
  - simpl. destruct (decide (clientId = k)) as [->|Hne].
    + rewrite lookup_insert_eq. intros [= <-]. simpl. lia.
    + rewrite lookup_insert_ne by done. apply Hinv.
Qed.

(** X16. The quota table of the admission middleware, from the start of
    the server and through any sequence of handshakes, room messages and
    disconnections: it holds one entry for every address that ever sent a
    handshake, the entry of an address is never removed (a disconnection
    frees nothing), and the count of every entry stays between 1 and 50. *)
Theorem quota_table_only_grows evs :
  dom (connections (server_run evs)) = addresses evs
  ∧ ∀ clientId client, connections (server_run evs) !! clientId = Some client →
      1 ≤ count client ≤ 50.
Proof.
  unfold server_run, addresses.
  induction evs as [|ev evs IH] using rev_ind.
  - simpl. split; [by rewrite dom_empty_L|]. intros k c. by rewrite lookup_empty.
  - rewrite foldl_snoc, omap_app, list_to_set_app_L.
    destruct IH as [Hdom Hcount]. destruct ev as [id clientId now|id now msg|id]; simpl.
    + rewrite connections_handshake. split.
      * rewrite rateLimit_dom, Hdom. apply set_eq. intros x.
        rewrite !elem_of_union, elem_of_singleton, elem_of_empty. tauto.
      * by apply rateLimit_counts.
    + split; [|done]. rewrite Hdom. apply set_eq. intros x.
      rewrite elem_of_union, elem_of_empty. tauto.
    + split; [|done]. rewrite Hdom. apply set_eq. intros x.
      rewrite elem_of_union, elem_of_empty. tauto.
Qed.

Lemma server_run_general evs id socket :
  sockets (server_run evs) !! id = Some socket →
  "general" ∈ rooms socket ∧ socket_id socket = id.
Proof.
  unfold server_run. revert id socket.
  induction evs as [|ev evs IH] using rev_ind; intros id socket.
  - simpl. by rewrite lookup_empty.
  - rewrite foldl_snoc. destruct ev as [id' clientId now|id' now msg|id']; simpl.
    + destruct (sockets_handshake id' clientId now (foldl server_step (mkServer ∅ ∅) evs))
        as [-> | ->]; [apply IH|].
      destruct (decide (id' = id)) as [->|Hne].
      * rewrite lookup_insert_eq. intros [= <-]. simpl. split; [|done].
        by apply elem_of_singleton.
      * rewrite lookup_insert_ne by done. apply IH.
    + rewrite lookup_alter. case_decide as Heq; [|apply IH]. subst id'.
      destruct (sockets _ !! id) as [s|] eqn:Hs; [|done]. simpl. intros [= <-].
      destruct (IH id s Hs) as [Hg Hid]. split.
      * apply rooms_on_message_other; [|done]. intros Heq.
        by apply (room_of_not_general msg).
      * by rewrite socket_id_on_message.
    + destruct (decide (id' = id)) as [->|Hne].
      * by rewrite lookup_delete_eq.
      * rewrite lookup_delete_ne by done. apply IH.
Qed.

(** X17. Every connected socket is in the room ['general'], whatever
    rooms it has joined or left since its handshake: no room message can
    take a socket out of it. So [emitToGeneral] reaches exactly the sockets
    that [emitToAll] reaches. *)
Theorem emitToGeneral_reaches_every_socket evs :
  emitToGeneral (server_run evs) = emitToAll (server_run evs)
  ∧ ∀ id socket, sockets (server_run evs) !! id = Some socket →
      "general" ∈ rooms socket.
Proof.
  split.
  - unfold emitToGeneral, emitToAll, to. f_equal.
    apply map_filter_id. intros id socket Hs. simpl.
    by apply (server_run_general evs id socket).
  - intros id socket Hs. by apply (server_run_general evs id socket).
Qed.

(** X18. Rooms do not interfere. A room message changes the socket's
    membership and its cooldown for the room it names only: for every other
    room the socket is in it exactly when it was before, and the instant of
    its last accepted join is unchanged, so a join is never held back by a
    recent join of another room. The rooms of different matches are
    different, and no match room is a category room. *)
Theorem room_messages_do_not_interfere now msg socket room :
  room ≠ room_of msg →
  (room ∈ rooms (on_message now msg socket) ↔ room ∈ rooms socket)
  ∧ last_accepted_join (on_message now msg socket) room = last_accepted_join socket room
  ∧ (∀ a b, match_room a = match_room b → a = b)
  ∧ (∀ a b, category_room a = category_room b → a = b)
  ∧ (∀ a b, match_room a ≠ category_room b).
Proof.
  intros Hne. split_and!.
  - by apply rooms_on_message_other.
  - assert (∀ r cooldownMs, room ≠ r →
              last_accepted_join (joinWithCooldown now r cooldownMs socket) room
              = last_accepted_join socket room) as Hjoin.
    { intros r cooldownMs Hr. unfold joinWithCooldown, last_accepted_join.
      case_decide; [done|]. simpl. apply lookup_insert_ne.
      intros Heq. apply Hr. symmetry. by eapply String.app_inj. }
    destruct msg; simpl in *; auto.
  - intros a b. unfold match_room. apply String.app_inj.
  - intros a b. unfold category_room. apply String.app_inj.
  - intros a b. unfold match_room, category_room. discriminate.
Qed.

(** A socket that has just joined the room of match 5 has no cooldown for
    the room of category 5, and its join of that room is accepted one
    millisecond later. *)
Lemma room_messages_do_not_interfere_witness :
  last_accepted_join (on_message 10000 (join_match "5") (connected "s1"))
    (category_room "5") = None
  ∧ category_room "5" ∈ rooms (on_message 10001 (join_category "5")
                                 (on_message 10000 (join_match "5") (connected "s1"))).
Proof.
  destruct (room_messages_do_not_interfere 10000 (join_match "5") (connected "s1")
              (category_room "5")) as (_ & Hlast & _).
  - discriminate.
  - split; [rewrite Hlast; reflexivity|].
    unfold on_message at 1. unfold joinWithCooldown.
    unfold last_accepted_join in Hlast. rewrite Hlast.
    change (joinCooldowns (connected "s1")) with (∅ : gmap string Z).
    rewrite lookup_empty, decide_False by (simpl; lia). simpl.
    apply elem_of_union. left. by apply elem_of_singleton.
Defined.

(** ** Request helpers *)

Section RequestFacts.
Context {V : Type} (inherited_names : list string).

Lemma getFilterParams_snoc (query : gmap string V) allowed filter :
  getFilterParams inherited_names query (allowed ++ [filter]) =
  match read inherited_names query filter with
  | Some value => assign (getFilterParams inherited_names query allowed) filter value
  | None => getFilterParams inherited_names query allowed
  end.
Proof. unfold getFilterParams. by rewrite foldl_snoc. Qed.

(** What the filters hold under a name: what the name reads from the
    query, when the name is allowed and is not ['__proto__']. *)
Lemma getFilterParams_allowed (query : gmap string V) allowedFilters key :
  getFilterParams inherited_names query allowedFilters !! key =
  if decide (key ∈ allowedFilters ∧ key ≠ "__proto__")
  then read inherited_names query key else None.
Proof.
  induction allowedFilters as [|filter allowed IH] using rev_ind.
  - rewrite decide_False; [done|]. intros [Hin _]. by apply not_elem_of_nil in Hin.
  - rewrite getFilterParams_snoc.
    assert (key ∈ allowed ++ [filter] ↔ key ∈ allowed ∨ key = filter) as Hin
      by (by rewrite elem_of_app, list_elem_of_singleton).
    destruct (decide (filter = key)) as [->|Hne].
    + destruct (read inherited_names query key) as [value|] eqn:Hread.
      * unfold assign. destruct (decide (key = "__proto__")) as [Hproto|Hproto].
        -- rewrite IH. rewrite !decide_False by tauto. done.
        -- rewrite lookup_insert_eq. rewrite decide_True; [done|]. tauto.
      * rewrite IH. by repeat case_decide.
    + assert (∀ value, assign (getFilterParams inherited_names query allowed)
                         filter value !! key
                       = getFilterParams inherited_names query allowed !! key) as Hkeep.
      { intros value. unfold assign.
        destruct (decide (filter = "__proto__")); [done|].
        by rewrite lookup_insert_ne by done. }
      assert (key ∈ allowed ++ [filter] ∧ key ≠ "__proto__"
              ↔ key ∈ allowed ∧ key ≠ "__proto__") as Hsame.
      { rewrite Hin. split; [|tauto]. intros [[?|?] ?]; [done|congruence]. }
      destruct (read inherited_names query filter); rewrite ?Hkeep, IH;
        destruct (decide (key ∈ allowed ∧ key ≠ "__proto__")) as [Hk|Hk];
        destruct (decide (key ∈ allowed ++ [filter] ∧ key ≠ "__proto__")) as [Hk'|Hk'];
        try done; exfalso; tauto.
Qed.

End RequestFacts.

(** X20. [getFilterParams] passes on what the allowed names read from
    [req.query], and nothing else: a name that is not in the allowed list
    never reaches the filters, and ['__proto__'] never becomes a property
    of them. An allowed name reads the parameter of that name when the
    query string has one; when it has none, the name is left out, unless
    [req.query] inherits a member of that name (as ['constructor'] or
    ['toString'] of [Object.prototype]): that member is then copied although
    the request carries no such parameter. For a name that is not
    inherited, the filters hold exactly the parameter, if present. So for
    the query [status=selesai&page=2] and the allowed names [status],
    [grup] and [constructor], the filters hold [status], no [grup], no
    [page], and the inherited [constructor]. *)
Theorem getFilterParams_lookup {V : Type} (inherited_names : list string)
    (query : gmap string V) allowedFilters key :
  (getFilterParams inherited_names query allowedFilters !! key =
   if decide (key ∈ allowedFilters ∧ key ≠ "__proto__")
   then read inherited_names query key else None) ∧
  (key ∈ allowedFilters → key ≠ "__proto__" → query !! key = None →
   key ∈ inherited_names →
   getFilterParams inherited_names query allowedFilters !! key = Some (inherited key)) ∧
  (key ∉ inherited_names → key ≠ "__proto__" →
   getFilterParams inherited_names query allowedFilters !! key =
   if decide (key ∈ allowedFilters) then own_value <$> query !! key else None) ∧
  (λ name, getFilterParams ["constructor"; "toString"]
             ({["status" := "selesai"; "page" := "2"]} : gmap string string)
             ["status"; "grup"; "constructor"] !! name)
  <$> ["status"; "grup"; "page"; "constructor"]
  = [Some (own_value "selesai"); None; None; Some (inherited "constructor")].
Proof.
  split_and!.
  - apply getFilterParams_allowed.
  - intros Hin Hproto Hq Hinh. rewrite getFilterParams_allowed, decide_True by done.
    unfold read. rewrite Hq. by rewrite decide_True.
  - intros Hinh Hproto. rewrite getFilterParams_allowed. unfold read.
    destruct (query !! key); repeat case_decide; try done; tauto.
  - vm_compute. reflexivity.
Qed.


Section PaginationFacts.
Context {V : Type} (parseInt : V → Num).



End PaginationFacts.


(** ** The error handler and the endpoints *)

Lemma errorHandler_thrown NODE_ENV e :
  errorHandler NODE_ENV (thrown e) = Some (mkErrorResponse (message e) (statusCode e)).
Proof.
  unfold errorHandler, thrown, override. simpl.
  rewrite !decide_False; [done|intros [_ ?]; done].
Qed.

(** X21. What [errorHandler] reports. An [AppError] thrown by the service
    is reported with its own message and status code, in every environment.
    In production an error that is not operational is reported as
    ['Something went wrong'], whatever its kind. The status code is the
    error's own (500 when it has none) or one of 400, 401 and 409. The
    handler itself fails exactly on a ['ValidationError'] that carries no
    [errors]. *)
Theorem errorHandler_reports :
  (∀ NODE_ENV e,
     errorHandler NODE_ENV (thrown e) = Some (mkErrorResponse (message e) (statusCode e)))
  ∧ (∀ err r, e_isOperational err = false →
       errorHandler (Some "production") err = Some r →
       r_message r = "Something went wrong")
  ∧ (∀ NODE_ENV err r, errorHandler NODE_ENV err = Some r →
       r_statusCode r ∈ [default 500 (e_statusCode err); 400; 401; 409])
  ∧ (∀ NODE_ENV err, errorHandler NODE_ENV err = None ↔
       e_name err = "ValidationError" ∧ e_errors err = None).
Proof.
  split_and!.
  - apply errorHandler_thrown.
  - intros err r Hop. unfold errorHandler.
    destruct (decide (e_name err = "ValidationError"));
      [destruct (e_errors err); [|done]|]; simpl;
      intros [= <-]; simpl; by rewrite decide_True.
  - intros NODE_ENV err r. unfold errorHandler, override.
    destruct (decide (e_name err = "ValidationError"));
      [destruct (e_errors err); [|done]|]; simpl;
      intros [= <-]; simpl; repeat case_decide; simpl;
      rewrite !elem_of_cons; tauto.
  - intros NODE_ENV err. unfold errorHandler.
    destruct (decide (e_name err = "ValidationError")) as [Hn|Hn];
      [destruct (e_errors err)|]; simpl; split; try done; try tauto.
    by intros [_ ?].
Qed.

Lemma asyncHandler_throw {D} NODE_ENV e db :
  asyncHandler (D:=D) NODE_ENV (Throw e, db)
  = (Some (api_error (message e) (statusCode e)), db).
Proof.
  unfold asyncHandler. by rewrite errorHandler_thrown.
Qed.

(** X22. [DELETE /api/matches/:id], from the controller through the
    service to the error handler, in every environment: for an id that has
    no match the answer is 404 ['Match not found']; for a match in progress
    it is 400 ['Cannot delete match in progress']; in both cases nothing is
    written. For any other match the answer is 200 and the match is gone. *)
Theorem delete_endpoint NODE_ENV id userId db :
  (getMatchById db id = None →
     MatchController_deleteMatch NODE_ENV id userId db
     = (Some (api_error "Match not found" 404), db)) ∧
  (∀ m, getMatchById db id = Some m → status m = sedang_main →
     MatchController_deleteMatch NODE_ENV id userId db
     = (Some (api_error "Cannot delete match in progress" 400), db)) ∧
  (∀ m, getMatchById db id = Some m → status m ≠ sedang_main →
     (MatchController_deleteMatch NODE_ENV id userId db).1
     = Some (api_success tt "Match deleted successfully" 200)
     ∧ (MatchController_deleteMatch NODE_ENV id userId db).2 = (deleteMatch id userId db).2
     ∧ getMatchById (MatchController_deleteMatch NODE_ENV id userId db).2 id = None).
Proof.
  unfold MatchController_deleteMatch. rewrite deleteMatch_unfold. split_and!.
  - by intros ->.
  - intros m -> Hs. rewrite decide_True by done. by rewrite asyncHandler_throw.
  - intros m Hm Hs. rewrite Hm, decide_False by done.
    assert (bool_decide (0 < length (filter (λ r, m_id r = id) (matches db)))%nat = true)
      as ->.
    { apply bool_decide_eq_true. unfold getMatchById in Hm.
      destruct (filter _ (matches db)); [done|simpl; lia]. }
    simpl. split_and!; try done.
    apply getMatchById_None. simpl.
    intros r Hr. by apply list_elem_of_filter in Hr as [? _].
Qed.

(** X23. [POST /api/matches/generate/bracket], from the controller through
    the service to the error handler: on every request, in every
    environment, the answer is 400 ['Category does not support bracket
    generation'] and nothing is written, whether the category exists or
    not and however it is set up. The answer is never 404 ['Category not
    found'], 400 ['Not enough teams qualified for bracket'] or 201. *)
Theorem bracket_endpoint (collate : relation string) `{!RelDecision collate}
    NODE_ENV id_kategori type userId db :
  MatchController_generateBracketMatches collate NODE_ENV id_kategori type userId db
  = (Some (api_error "Category does not support bracket generation" 400), db).
Proof.
  unfold MatchController_generateBracketMatches.
  rewrite generateBracketMatches_unfold. by rewrite asyncHandler_throw.
Qed.

(** ** Token verification *)

Lemma bearer_token token : bearer (Some ("Bearer " +:+ token)) = Some token.
Proof. by destruct token. Qed.

Section VerificationFacts.
Context (verify : string → option Decoded).

(** X24. A middleware that is not optional lets a request through only
    with a verified token: whenever it calls [next], [req.user] holds the
    claims of the request's token, that token verifies, its [exp] (if any)
    has not passed, its role is the required role (if one is required) and
    is one of the allowed roles (if any are listed). *)
Theorem protected_routes_need_a_verified_token options now req user :
  optional options = false →
  verifyToken verify options now req = auth_next user →
  ∃ decoded token,
    user = Some (decoded, token)
    ∧ request_token (cookieName options) req = Some token
    ∧ verify token = Some decoded
    ∧ ¬ expired decoded now
    ∧ (∀ r, requireRole options = Some r → r ≠ "" → role decoded = Some r)
    ∧ (allowedRoles options ≠ [] →
       ∃ r, role decoded = Some r ∧ r ∈ allowedRoles options).
Proof.
  intros Hopt. unfold verifyToken. rewrite Hopt.
  destruct (request_token _ req) as [token|]; [|done].
  destruct (verify token) as [decoded|] eqn:Hv; [|done].
  destruct (decide (expired decoded now)) as [|Hexp]; [done|].
  destruct (decide (lacks_required_role options decoded)) as [|Hrole]; [done|].
  destruct (decide (allowedRoles options ≠ []
                    ∧ ¬ includes_role (allowedRoles options) decoded))
    as [|Hallowed]; [done|].
  intros [= <-]. exists decoded, token. split_and!; try done.
  - intros r Hr Hne. unfold lacks_required_role in Hrole. rewrite Hr in Hrole.
    destruct (decide (role decoded = Some r)); [done|]. destruct Hrole. done.
  - intros Hroles. unfold includes_role in Hallowed.
    destruct (role decoded) as [r|].
    + exists r. split; [done|]. destruct (decide (r ∈ allowedRoles options)); [done|].
      destruct Hallowed. done.
    + destruct Hallowed. split; [done|]. by intros [].
Qed.


(** X26. Where the token comes from. A cookie of the configured name that
    is not empty is the token, and the [Authorization] header is then not
    looked at; without such a cookie the token is what follows ['Bearer ']
    in the header, and a header that does not start with ['Bearer '], or
    has nothing after it, gives no token. So a request whose cookie does not
    verify is refused by a middleware that is not optional even when its
    header carries a token that would verify. *)
Theorem cookie_takes_precedence options now req :
  let no_cookie := cookies req !! cookieName options = None
                   ∨ cookies req !! cookieName options = Some "" in
  (∀ cookie, cookies req !! cookieName options = Some cookie → cookie ≠ "" →
     request_token (cookieName options) req = Some cookie) ∧
  (no_cookie → ∀ token, authorization req = Some ("Bearer " +:+ token) →
     request_token (cookieName options) req
     = if decide (token = "") then None else Some token) ∧
  (no_cookie → authorization req = None → request_token (cookieName options) req = None) ∧
  (no_cookie → ∀ header, authorization req = Some header →
     String.prefix "Bearer " header = false →
     request_token (cookieName options) req = None) ∧
  (∀ cookie, cookies req !! cookieName options = Some cookie → cookie ≠ "" →
     verify cookie = None → optional options = false →
     verifyToken verify options now req = auth_unauthorized "Invalid token").
Proof.
  intros no_cookie.
  assert (∀ cookie, cookies req !! cookieName options = Some cookie → cookie ≠ "" →
            request_token (cookieName options) req = Some cookie) as Hcookie.
  { intros cookie Hc Hne. unfold request_token. rewrite Hc.
    by rewrite !decide_False. }
  assert (no_cookie →
          request_token (cookieName options) req =
          match bearer (authorization req) with
          | Some token => if decide (token = "") then None else Some token
          | None => None
          end) as Hheader.
  { intros [Hc|Hc]; unfold request_token; rewrite Hc; [done|].
    by rewrite decide_True. }
  split_and!.
  - exact Hcookie.
  - intros Hno token Hauth. by rewrite Hheader, Hauth, bearer_token by done.
  - intros Hno Hauth. by rewrite Hheader, Hauth.
  - intros Hno header Hauth Hprefix. rewrite Hheader, Hauth by done.
    unfold bearer. by rewrite Hprefix.
  - intros cookie Hc Hne Hv Hopt. unfold verifyToken.
    by rewrite (Hcookie cookie Hc Hne), Hv, Hopt.
Qed.

End VerificationFacts.

(** With the sample verifier the admin middleware lets the request with the
    cookie [admin_token=good] through as an admin. *)
Lemma protected_routes_need_a_verified_token_witness :
  ∃ decoded token,
    auth_admin sample_verify 5000000
      (mkAuthRequest {["admin_token" := "good"]} None) = auth_next (Some (decoded, token))
    ∧ role decoded = Some "admin" ∧ token = "good".
Proof.
  destruct (protected_routes_need_a_verified_token sample_verify
              (mkAuthOptions "admin_token" (Some "admin") [] false) 5000000
              (mkAuthRequest {["admin_token" := "good"]} None)
              (Some (mkDecoded None (Some "admin"), "good")))
    as (decoded & token & [= <- <-] & _ & _ & _ & Hrole & _).
  - reflexivity.
  - vm_compute. reflexivity.
  - eexists _, _. split_and!; [|apply (Hrole "admin"); [reflexivity|discriminate]
                               |reflexivity].
    vm_compute. reflexivity.
Defined.


(** ** Further endpoints and subscriptions *)


Lemma elem_of_to room srv id :
  id ∈ to room srv ↔ ∃ socket, sockets srv !! id = Some socket ∧ room ∈ rooms socket.
Proof.
  unfold to. rewrite elem_of_dom. unfold is_Some.
  setoid_rewrite map_lookup_filter_Some. simpl. split.
  - intros (socket & Hs & Hr). by exists socket.
  - intros (socket & Hs & Hr). by exists socket.
Qed.

(** X28. Who receives what is sent to a match. After a socket's join of a
    match room is accepted, [emitToMatch] for that match reaches the socket;
    after its leave it does not; and a room message of one socket never
    changes what another socket receives, nor what the same socket receives
    for another match. *)
Theorem emitToMatch_follows_join_and_leave srv id socket now matchId :
  sockets srv !! id = Some socket →
  (2000 ≤ now - default 0 (last_accepted_join socket (match_room matchId)) →
     id ∈ emitToMatch matchId (deliver id now (join_match matchId) srv)) ∧
  (id ∉ emitToMatch matchId (deliver id now (leave_match matchId) srv)) ∧
  (∀ id' msg m, id' ≠ id →
     id' ∈ emitToMatch m (deliver id now msg srv) ↔ id' ∈ emitToMatch m srv) ∧
  (∀ msg m, match_room m ≠ room_of msg →
     id ∈ emitToMatch m (deliver id now msg srv) ↔ id ∈ emitToMatch m srv).
Proof.
  intros Hs. unfold emitToMatch. split_and!.
  - intros Hcool. apply elem_of_to. exists (on_message now (join_match matchId) socket).
    split; [simpl; by rewrite lookup_alter_eq, Hs|].
    simpl. unfold joinWithCooldown. unfold last_accepted_join in Hcool.
    rewrite decide_False by lia. simpl. apply elem_of_union. left.
    by apply elem_of_singleton.
  - rewrite elem_of_to. intros (s & Hlook & Hin). simpl in Hlook.
    rewrite lookup_alter_eq, Hs in Hlook. injection Hlook as <-.
    simpl in Hin. apply elem_of_difference in Hin as [_ Hin]. apply Hin.
    by apply elem_of_singleton.
  - intros id' msg m Hne. rewrite !elem_of_to. simpl.
    by rewrite lookup_alter_ne.
  - intros msg m Hne. rewrite !elem_of_to. simpl. rewrite lookup_alter_eq, Hs. simpl.
    split.
    + intros (s & [= <-] & Hin). exists socket. split; [done|].
      by apply (rooms_on_message_other now msg socket).
    + intros (s & [= <-] & Hin). eexists. split; [done|].
      by apply rooms_on_message_other.
Qed.

(** The socket s1, just connected, joins the room of match 5 at 10000 ms
    and is reached by what is sent to match 5. *)
Lemma emitToMatch_follows_join_and_leave_witness :
  "s1" ∈ emitToMatch "5"
           (deliver "s1" 10000 (join_match "5")
              (mkServer ∅ {["s1" := connected "s1"]})).
Proof.
  destruct (emitToMatch_follows_join_and_leave (mkServer ∅ {["s1" := connected "s1"]})
              "s1" (connected "s1") 10000 "5") as (Hjoin & _).
  - reflexivity.
  - apply Hjoin. vm_compute. discriminate.
Defined.

Section RoleFacts.
Context (verify : string → option Decoded).

(** X29. What [hasRole] lets through. For a request whose token verifies
    and has not expired, [hasRole(roles)] calls [next] when the token's
    role is one of [roles] and answers 403 ['Insufficient permissions']
    otherwise; a single role is treated as the list of that role; and with
    an empty list it restricts nothing: every such token is let through,
    whatever its role. *)
Theorem hasRole_lets_through roles now req decoded token :
  request_token "token" req = Some token →
  verify token = Some decoded →
  ¬ expired decoded now →
  let allowed := match roles with inl roles => roles | inr r => [r] end in
  (includes_role allowed decoded →
     auth_hasRole verify roles now req = auth_next (Some (decoded, token))) ∧
  (allowed ≠ [] → ¬ includes_role allowed decoded →
     auth_hasRole verify roles now req = auth_forbidden "Insufficient permissions") ∧
  (allowed = [] → auth_hasRole verify roles now req = auth_next (Some (decoded, token))).
Proof.
  intros Htoken Hv Hexp allowed. unfold auth_hasRole, verifyToken. simpl.
  rewrite Htoken, Hv. rewrite decide_False by done.
  unfold lacks_required_role. simpl. fold allowed. split_and!.
  - intros Hin. rewrite decide_False; [done|]. by intros [_ ?].
  - intros Hne Hout. by rewrite decide_True.
  - intros ->. rewrite decide_False; [done|]. by intros [? _].
Qed.

End RoleFacts.

(** With the sample verifier, the admin token passes [hasRole('admin')] and
    [hasRole([])] and is refused by [hasRole('team')]. *)
Lemma hasRole_lets_through_witness :
  auth_hasRole sample_verify (inr "admin") 5000000 sample_auth_request
  = auth_next (Some (mkDecoded None (Some "admin"), "good"))
  ∧ auth_hasRole sample_verify (inl []) 5000000 sample_auth_request
    = auth_next (Some (mkDecoded None (Some "admin"), "good"))
  ∧ auth_hasRole sample_verify (inr "team") 5000000 sample_auth_request
    = auth_forbidden "Insufficient permissions".
Proof.
  assert (∀ roles,
    let allowed := match roles with inl roles => roles | inr r => [r] end in
    (includes_role allowed (mkDecoded None (Some "admin")) →
       auth_hasRole sample_verify roles 5000000 sample_auth_request
       = auth_next (Some (mkDecoded None (Some "admin"), "good"))) ∧
    (allowed ≠ [] → ¬ includes_role allowed (mkDecoded None (Some "admin")) →
       auth_hasRole sample_verify roles 5000000 sample_auth_request
       = auth_forbidden "Insufficient permissions") ∧
    (allowed = [] →
       auth_hasRole sample_verify roles 5000000 sample_auth_request
       = auth_next (Some (mkDecoded None (Some "admin"), "good")))) as H.
  { intros roles.
    apply (hasRole_lets_through sample_verify roles 5000000 sample_auth_request
             (mkDecoded None (Some "admin")) "good");
      [reflexivity|reflexivity|by intros []]. }
  split_and!.
  - destruct (H (inr "admin")) as (Hin & _). apply Hin. simpl.
    by apply list_elem_of_singleton.
  - destruct (H (inl [])) as (_ & _ & Hnone). by apply Hnone.
  - destruct (H (inr "team")) as (_ & Hout & _). apply Hout; [done|]. simpl.
    intros Hin. apply list_elem_of_singleton in Hin. discriminate.
Defined.

